(** * ImplicitWrap: seen-item-aware, candidate-restricted recommendation

    A shallow embedding of [replay/models/implicit_wrap.py].

    - Spark relations are lists of rows; Spark fixes no row order, so every
      statement below is about membership, counts or permutations.
    - The wrapped [implicit] model is an external collaborator: it is an
      interface ([FactorModel]) with a separately stated contract
      ([FactorModelContract]), and one executable instance ([PopModel])
      on which the examples run.
    - Python exceptions are values of [exn]; a method is a function from
      the session to an outcome and the session it leaves behind. *)

From stdpp Require Import gmap list sorting strings.

Set Warnings "-clear-no-such-hyp".

Local Open Scope Z_scope.

(** ** Rows, exceptions, sparse matrices *)

(** A row of a relation with the columns [user_idx], [item_idx],
    [relevance]: an interaction of a log, and a row of REC_SCHEMA. *)
Record Row (R : Type) := mkRow {
  user_idx : Z;
  item_idx : Z;
  relevance : R
}.
Arguments mkRow {R} _ _ _.
Arguments user_idx {R} _.
Arguments item_idx {R} _.
Arguments relevance {R} _.

(** The (user, item) identity of a row. *)
Definition identity {R} (r : Row R) : Z * Z := (user_idx r, item_idx r).

Inductive exn : Type :=
| EmptyLogError          (* the matrix builder was given a log without rows *)
| TypeError              (* subscripting None *)
| IndexError             (* .iloc[0] on an empty frame *)
| ValueError             (* pandas / numpy: columns or arrays of unequal shape *)
| FileNotFoundError      (* joblib.load of a path nothing was dumped to *)
| ModelError (code : Z)  (* raised inside the wrapped model, whatever it is *)
| InvalidKError.         (* named by the specification; no code path raises it *)

(** A sparse user x item matrix: row index, then column index, to the stored
    value. What is not stored is zero. *)
Abbreviation csr R := (gmap Z (gmap Z R)).

(** [matrix[user]]: the stored entries of one row. *)
Definition row_of {R} (A : csr R) (u : Z) : gmap Z R := default ∅ (A !! u).

Section Builder.
Context {R : Type}.
(** The reducer of the relevance values of a repeated (user, item) pair. *)
Variable reduce : R → R → R.

Definition add_interaction (A : csr R) (r : Row R) : csr R :=
  let row := row_of A (user_idx r) in
  let v := match row !! item_idx r with
           | Some old => reduce old (relevance r)
           | None => relevance r
           end in
  <[user_idx r := <[item_idx r := v]> row]> A.

Definition build (log : list (Row R)) : csr R :=
  foldl add_interaction ∅ log.

(** Modelled from the spec: [replay.utils.to_csr], the Sparse Matrix
    Builder, is imported by the wrapper and is not among the sources.
    It aggregates the relevance of repeated (user, item) pairs with the
    reducer, leaves every pair without an interaction implicitly zero, and
    fails with [EmptyLogError] on a log without interactions. The wrapper
    subscripts the matrix with [user_idx] itself, so rows and columns are
    keyed by the ids of the log. *)
Definition to_csr (log : list (Row R)) : exn + csr R :=
  match log with
  | [] => inl EmptyLogError
  | _ => inr (build log)
  end.

(** The user has an interaction with the item in the log. *)
Definition seen (log : list (Row R)) (u i : Z) : Prop :=
  ∃ r, r ∈ log ∧ user_idx r = u ∧ item_idx r = i.

End Builder.

(** ** The wrapped model *)

(** The capabilities the wrapper uses of an [implicit] model [m].
    - [fit m matrix]: the model as [m.fit(matrix)] leaves it, and the code of
      what the call raised, if it raised;
    - [recommend m userid user_items N filter_already_liked_items filter_items]:
      the call with a scalar [userid], as [_predict] makes it; it returns the
      arrays [(ids, scores)];
    - [recommend_batch m userids user_items N filter_already_liked_items items]:
      the call with an array of users and the keyword [items=], as
      [_predict_pairs] makes it; it returns two 2-d arrays, a row per user;
    - [known_items m]: the items the fitted model has factors for.
    A call that raises returns [inl] with a code for what was raised.
    [recommend] reads the model and does not change it. *)
Class FactorModel (R M : Type) := {
  fit : M → csr R → M * option Z;
  recommend : M → Z → gmap Z R → Z → bool → list Z → Z + (list Z * list R);
  recommend_batch :
    M → list Z → list (gmap Z R) → Z → bool → list Z →
    Z + (list (list Z) * list (list R));
  known_items : M → gset Z
}.

(** What the properties that name it ask of the wrapped model: an answer to
    a call for a positive [N] has at most [N] items and no item twice (the
    specification, 4.2 step 3c and 4.3), and the batch call with
    [N = len(items)] and no filter ranks every requested item for every user
    (4.4). The wrapper checks none of it. *)
Class FactorModelContract (R M : Type) `{!FactorModel R M} : Prop := {
  recommend_at_most (m : M) u row k f drop ids rel :
    0 < k → recommend m u row k f drop = inr (ids, rel) →
    Z.of_nat (length ids) ≤ k;
  recommend_no_dup (m : M) u row k f drop ids rel :
    recommend m u row k f drop = inr (ids, rel) → NoDup ids;
  recommend_batch_dense (m : M) us rows items ids rel :
    NoDup items →
    recommend_batch m us rows (Z.of_nat (length items)) false items
      = inr (ids, rel) →
    Forall (λ row_ids, row_ids ≡ₚ items) ids
}.

(** ** pandas, numpy and Spark as the wrapper uses them *)

(** An exception raised inside the model reaches the caller of the wrapper. *)
Definition model_call {A} (r : Z + A) : exn + A :=
  match r with
  | inl code => inl (ModelError code)
  | inr a => inr a
  end.

(** [exn + A] as an error monad. *)
#[global] Instance exn_ret : MRet (sum exn) := λ A a, inr a.
#[global] Instance exn_bind : MBind (sum exn) :=
  λ A B f m, match m with inl e => inl e | inr a => f a end.

(** A pandas frame with the three columns of REC_SCHEMA. *)
Record Frame (R : Type) := mkFrame {
  col_user_idx : list Z;
  col_item_idx : list Z;
  col_relevance : list R
}.
Arguments mkFrame {R} _ _ _.
Arguments col_user_idx {R} _.
Arguments col_item_idx {R} _.
Arguments col_relevance {R} _.

(** [pd.DataFrame({...})] of three columns: a ValueError unless they have
    one length. *)
Definition pd_DataFrame {R} (us ids : list Z) (rel : list R) : exn + Frame R :=
  if decide (length us = length ids ∧ length ids = length rel)
  then inr (mkFrame us ids rel)
  else inl ValueError.

(** The rows of a frame, as Spark reads them back. *)
Definition frame_rows {R} (fr : Frame R) : list (Row R) :=
  zip_with (λ u ir, mkRow u ir.1 ir.2)
    (col_user_idx fr) (zip (col_item_idx fr) (col_relevance fr)).

(** [df.groupby("user_idx")]: one group per distinct user, holding that
    user's rows. *)
Definition groupby (users : list Z) : list (list Z) :=
  (λ u, filter (λ v, v = u) users) <$> remove_dups users.

(** [.applyInPandas(f, REC_SCHEMA)]: [f] on every group, the frames
    concatenated; the first failure is the failure of the whole. *)
Fixpoint applyInPandas {R} (f : list Z → exn + Frame R) (groups : list (list Z))
  : exn + list (Row R) :=
  match groups with
  | [] => inr []
  | g :: rest =>
      fr ← f g;
      rows ← applyInPandas f rest;
      mret (frame_rows fr ++ rows)
  end.

(** An int64 converted to float64 and back, as [np.stack] with a float array
    followed by [astype("int64")] does: exact up to 2^53, else rounded to the
    nearest representable value, ties to even. *)
Definition via_float64 (z : Z) : Z :=
  let a := Z.abs z in
  if a <=? 2 ^ 53 then z
  else
    let s := Z.log2 a - 52 in
    let q := a / 2 ^ s in
    let r := a mod 2 ^ s in
    let h := 2 ^ (s - 1) in
    let q' := if r <? h then q
              else if h <? r then q + 1
              else if Z.even q then q else q + 1 in
    Z.sgn z * (q' * 2 ^ s).

(** A 2-d array has the shape [(n, m)]. *)
Definition has_shape {A} (n m : nat) (a : list (list A)) : Prop :=
  length a = n ∧ Forall (λ r, length r = m) a.

#[global] Instance has_shape_dec {A} n m (a : list (list A)) :
  Decision (has_shape n m a).
Proof. unfold has_shape. apply _. Defined.

(** A row per cell of three arrays of one shape, row-major, the two id columns
    having gone through float64. *)
Definition stacked {R} (user_grid item_grid : list (list Z)) (rel : list (list R))
  : list (Row R) :=
  concat (zip_with
    (λ us irs, zip_with
       (λ u ir, mkRow (via_float64 u) (via_float64 ir.1) ir.2) us irs)
    user_grid (zip_with zip item_grid rel)).

(** [np.stack([user_grid, item_grid, rel], axis=2).reshape(-1, 3)] followed by
    the cast of the two id columns back to int64: a ValueError unless the
    three arrays have one shape [(n, m)]. *)
Definition np_stack_rows {R} (n m : nat)
  (user_grid item_grid : list (list Z)) (rel : list (list R))
  : exn + list (Row R) :=
  if decide (has_shape n m user_grid ∧ has_shape n m item_grid ∧ has_shape n m rel)
  then inr (stacked user_grid item_grid rel)
  else inl ValueError.

(** The rows of a relation that belong to one user. *)
Definition block {R} (rows : list (Row R)) (u : Z) : list (Row R) :=
  filter (λ r, user_idx r = u) rows.

(** ** The wrapper *)

(** Matrices are objects: [self.csr_log] holds a reference, and [heap] maps
    the references handed out so far to their matrices. A matrix that is only
    a local of one call is a plain value. *)
Definition loc := positive.

Record ImplicitWrap (R M : Type) := mkImplicitWrap {
  model : M;
  csr_log : option loc;
  heap : gmap loc (csr R)
}.
Arguments mkImplicitWrap {R M} _ _ _.
Arguments model {R M} _.
Arguments csr_log {R M} _.
Arguments heap {R M} _.

(** The outcome of a method: its result or the exception it raised, and the
    instance as the call leaves it. *)
Definition outcome (R M A : Type) : Type := (exn + A) * ImplicitWrap R M.

(** The matrix [self.csr_log] refers to, [None] when it is [None]. *)
Definition cached {R M} (self : ImplicitWrap R M) : option (csr R) :=
  ℓ ← csr_log self; heap self !! ℓ.

(** No reference of the instance dangles. *)
Definition wf {R M} (self : ImplicitWrap R M) : Prop :=
  ∀ ℓ, csr_log self = Some ℓ → ℓ ∈ dom (heap self).

Section Wrapper.
Context {R M : Type} `{!FactorModel R M}.
Variable reduce : R → R → R.

(** [ImplicitWrap(model)], constructed next to the objects of [h]. *)
Definition __init__ (mdl : M) (h : gmap loc (csr R)) : ImplicitWrap R M :=
  mkImplicitWrap mdl None h.

(** [joblib.dump(self.model, path)] on the files [fs]. *)
Definition _save_model (path : string) (self : ImplicitWrap R M)
  (fs : gmap string M) : gmap string M :=
  <[path := model self]> fs.

(** [self.model = joblib.load(path)]. *)
Definition _load_model (path : string) (fs : gmap string M)
  (self : ImplicitWrap R M) : outcome R M () :=
  match fs !! path with
  | None => (inl FileNotFoundError, self)
  | Some loaded => (inr (), mkImplicitWrap loaded (csr_log self) (heap self))
  end.

Definition _fit (log : list (Row R)) (self : ImplicitWrap R M) : outcome R M () :=
  match to_csr reduce log with
  | inl e => (inl e, self)
  | inr matrix =>
      let ℓ := fresh (dom (heap self)) in
      let fitted := fit (model self) matrix in
      (match fitted.2 with
       | Some code => inl (ModelError code)
       | None => inr ()
       end,
       mkImplicitWrap fitted.1 (Some ℓ) (<[ℓ := matrix]> (heap self)))
  end.

(** The closure [predict_by_user] of [_predict], with the variables it
    captures as arguments. *)
Definition predict_by_user (mdl : M) (user_item_data : csr R) (k : Z)
  (filter_seen_items : bool) (items_to_drop : list Z) (pandas_df : list Z)
  : exn + Frame R :=
  match pandas_df with
  | [] => inl IndexError
  | user :: _ =>
      '(ids, rel) ← model_call (recommend mdl user (row_of user_item_data user) k
                                  filter_seen_items items_to_drop);
      pd_DataFrame (replicate (length ids) user) ids rel
  end.

(** [log.select("item_idx").subtract(items)]: the distinct items of the log
    that are not in [items]. *)
Definition items_to_drop (log : list (Row R)) (items : list Z) : list Z :=
  remove_dups (filter (λ i, i ∉ items) (item_idx <$> log)).

Definition _predict (log : list (Row R)) (k : Z) (users items : list Z)
  (filter_seen_items : bool) (self : ImplicitWrap R M) : outcome R M (list (Row R)) :=
  let drop := items_to_drop log items in
  ((user_item_data ← to_csr reduce log;
    applyInPandas
      (predict_by_user (model self) user_item_data k filter_seen_items drop)
      (groupby users)),
   self).

Definition _predict_pairs (pairs : list (Z * Z)) (log : option (list (Row R)))
  (self : ImplicitWrap R M) : outcome R M (list (Row R)) :=
  ((user_plays_pred ← match log with
                      | Some l => matrix ← to_csr reduce l; mret (Some matrix)
                      | None => inr (cached self)
                      end;
   let users := remove_dups (pairs.*1) in
   let items := remove_dups (pairs.*2) in
   rows ← match user_plays_pred with
           | None => inl TypeError
           | Some matrix => inr (row_of matrix <$> users)
           end;
   '(item_grid, rel) ← model_call (recommend_batch (model self) users rows
                                     (Z.of_nat (length items)) false items);
   let user_grid := (λ u, replicate (length items) u) <$> users in
   np_stack_rows (length users) (length items) user_grid item_grid rel),
   self).

End Wrapper.

(** ** An executable model: ranking by popularity

    A small stand-in for a fitted [implicit] model, with integer relevance:
    fitting records for every item of the matrix the sum of its column, and
    a recommendation ranks the available items by that score, highest first,
    ties by ascending item id. *)
Module Pop.

Record PopModel := mkPop { pop : gmap Z Z }.

Definition popularity (A : csr Z) : gmap Z Z :=
  map_fold (λ _ row acc, union_with (λ a b, Some (a + b)) acc row) ∅ A.

Definition outranks (a b : Z * Z) : Prop :=
  b.2 < a.2 ∨ (b.2 = a.2 ∧ a.1 ≤ b.1).

#[global] Instance outranks_dec a b : Decision (outranks a b).
Proof. unfold outranks. apply _. Defined.

Definition ranked (l : list (Z * Z)) : list (Z * Z) := merge_sort outranks l.

(** The scored items still available once [drop] and, with the filter on,
    the stored items of the row are excluded. *)
Definition available (m : PopModel) (row : gmap Z Z) (f : bool) (drop : list Z)
  : list (Z * Z) :=
  filter (λ p, (p.1 ∉ drop) ∧ (f = true → p.1 ∉ dom row)) (map_to_list (pop m)).

Definition pop_recommend (m : PopModel) (u : Z) (row : gmap Z Z) (k : Z)
  (f : bool) (drop : list Z) : Z + (list Z * list Z) :=
  let top := take (Z.to_nat k) (ranked (available m row f drop)) in
  inr (top.*1, top.*2).

(** The batch call scores exactly the requested [items]; an item without a
    factor, or a matrix without a row per user, is an error of the model. *)
Definition pop_recommend_batch (m : PopModel) (us : list Z)
  (rows : list (gmap Z Z)) (n : Z) (f : bool) (items : list Z)
  : Z + (list (list Z) * list (list Z)) :=
  if decide (Forall (λ i, i ∈ dom (pop m)) items ∧ length rows = length us)
  then
    let per_user (row : gmap Z Z) :=
      take (Z.to_nat n)
        (ranked (filter (λ p, f = true → p.1 ∉ dom row)
                   ((λ i, (i, default 0 (pop m !! i))) <$> items))) in
    let tops := per_user <$> rows in
    inr ((λ t, t.*1) <$> tops, (λ t, t.*2) <$> tops)
  else inl 1.

#[global] Instance PopModel_FactorModel : FactorModel Z PopModel := {|
  fit := λ _ A, (mkPop (popularity A), None);
  recommend := pop_recommend;
  recommend_batch := pop_recommend_batch;
  known_items := λ m, dom (pop m)
|}.

(** The log of the docstring of [ImplicitWrap]. *)
Definition docstring_log : list (Row Z) :=
  [mkRow 1 1 1; mkRow 1 2 1; mkRow 2 2 1; mkRow 2 3 1].

Definition unfitted : ImplicitWrap Z PopModel := __init__ (mkPop ∅) ∅.

Definition fitted : ImplicitWrap Z PopModel := (_fit Z.add docstring_log unfitted).2.

End Pop.

(** ** Sequences of calls *)

Section Lifecycle.
Context {R M : Type} `{!FactorModel R M}.
Variable reduce : R → R → R.

(** A call of a method of the wrapper, with its arguments. *)
Inductive call : Type :=
| Fit (log : list (Row R))
| Load (path : string) (fs : gmap string M)
| Predict (log : list (Row R)) (k : Z) (users items : list Z)
    (filter_seen_items : bool)
| PredictPairs (pairs : list (Z * Z)) (log : option (list (Row R))).

(** The instance as a call leaves it, whether the call returned or raised. *)
Definition after (c : call) (self : ImplicitWrap R M) : ImplicitWrap R M :=
  match c with
  | Fit log => (_fit reduce log self).2
  | Load path fs => (_load_model path fs self).2
  | Predict log k users items f => (_predict reduce log k users items f self).2
  | PredictPairs pairs log => (_predict_pairs reduce pairs log self).2
  end.

(** The instance after the calls of a list, in order. *)
Definition after_all (cs : list call) (self : ImplicitWrap R M)
  : ImplicitWrap R M :=
  foldl (λ s c, after c s) self cs.

(** The call is a fit that gets its matrix built. *)
Definition fits (c : call) : Prop :=
  match c with
  | Fit log => ∃ matrix, to_csr reduce log = inr matrix
  | _ => False
  end.

End Lifecycle.

(** ** Dataset downloads

    [sponge_bob_magic/data_loader/datasets.py]. [download_dataset] of
    [data_loader.loaders] is not among the sources: the two functions are
    given it as an argument, and what they do is the call they make of it.
    Logging leaves no trace here. *)
Module Datasets.

(** [b.startswith("/")]. *)
Definition startswith_sep (b : string) : bool :=
  match b with
  | String c _ => bool_decide (String c "" = "/")
  | EmptyString => false
  end.

(** [a.endswith("/")]. *)
Fixpoint endswith_sep (a : string) : bool :=
  match a with
  | EmptyString => false
  | String c EmptyString => bool_decide (String c "" = "/")
  | String _ rest => endswith_sep rest
  end.

(** [os.path.join(a, b)] of [posixpath], for two components: an absolute [b]
    replaces [a]; else [b] is appended, after a separator unless [a] is empty
    or ends with one. *)
Definition join (a b : string) : string :=
  if startswith_sep b then b
  else if bool_decide (a = "") || endswith_sep a then a +:+ b
  else a +:+ "/" +:+ b.

Section Download.
Context {A : Type}.
(** [download_dataset(url, path)]. *)
Variable download_dataset : string → string → A.

(** [None] for an argument left to its default. *)
Definition download_movielens (path dataset : option string) : A :=
  let path := default "." path in
  let dataset := default "ml-latest-small" dataset in
  let archive := dataset +:+ ".zip" in
  let path := join path archive in
  let url := "http://files.grouplens.org/datasets/movielens/" +:+ archive in
  download_dataset url path.

Definition download_rekko (path : option string) : A :=
  let path := default "." path in
  let archive := "rekko_challenge_rekko_challenge_2019.zip" in
  let url := "https://boosters.pro/api/ch/files/pub/" +:+ archive in
  let path := join path "rekko.zip" in
  download_dataset url path.

End Download.

End Datasets.

(** * Properties *)

(** ** The matrix builder *)

Section BuilderFacts.
Context {R : Type}.
Variable reduce : R → R → R.

Lemma row_of_empty (u : Z) : row_of (∅ : csr R) u = ∅.
Proof. unfold row_of. by rewrite lookup_empty. Qed.

Lemma add_interaction_stored (A : csr R) (r : Row R) (u i : Z) :
  i ∈ dom (row_of (add_interaction reduce A r) u) ↔
  (u = user_idx r ∧ i = item_idx r) ∨ i ∈ dom (row_of A u).
Proof.
  unfold add_interaction, row_of.
  destruct (decide (user_idx r = u)) as [->|Hne].
  - rewrite lookup_insert_eq. simpl. rewrite dom_insert. set_solver.
  - rewrite lookup_insert_ne by done. naive_solver.
Qed.

Lemma foldl_add_interaction_stored (log : list (Row R)) (A : csr R) (u i : Z) :
  i ∈ dom (row_of (foldl (add_interaction reduce) A log) u) ↔
  seen log u i ∨ i ∈ dom (row_of A u).
Proof.
  revert A. induction log as [|r log IH]; intros A; simpl.
  - split; [by right|]. intros [(r & Hr & _)|H]; [by apply elem_of_nil in Hr|done].
  - rewrite IH, add_interaction_stored. unfold seen. split.
    + intros [(r' & Hr' & Hu & Hi)|[[-> ->]|H]].
      * left. exists r'. rewrite elem_of_cons. by auto.
      * left. exists r. rewrite elem_of_cons. by auto.
      * by right.
    + intros [(r' & Hr' & Hu & Hi)|H]; [|by right; right].
      apply elem_of_cons in Hr' as [->|Hr'].
      * right; left. by subst.
      * left. by exists r'.
Qed.

(** The stored entries of a user's row are that user's interactions. *)
Lemma build_stored (log : list (Row R)) (u i : Z) :
  i ∈ dom (row_of (build reduce log) u) ↔ seen log u i.
Proof.
  unfold build. rewrite foldl_add_interaction_stored, row_of_empty.
  set_solver.
Qed.

(** A user without interactions has an all-zero row. *)
Lemma build_cold_row (log : list (Row R)) (u : Z) :
  (∀ r, r ∈ log → user_idx r ≠ u) → row_of (build reduce log) u = ∅.
Proof.
  intros Hcold. apply dom_empty_inv_L. apply set_eq. intros i.
  rewrite build_stored. split; [|set_solver].
  intros (r & Hr & Hu & _). by destruct (Hcold r Hr).
Qed.

Lemma to_csr_nonempty (log : list (Row R)) :
  log ≠ [] → to_csr reduce log = inr (build reduce log).
Proof. by destruct log. Qed.

End BuilderFacts.

(** ** The popularity model honours the contract *)

Module PopFacts.
Import Pop.

Lemma filter_all {A} (P : A → Prop) `{!∀ x, Decision (P x)} (l : list A) :
  (∀ x, P x) → filter P l = l.
Proof.
  intros HP. induction l as [|x l IH]; [done|].
  rewrite filter_cons_True by done. by rewrite IH.
Qed.

Lemma submseteq_NoDup {A} (l1 l2 : list A) : l1 ⊆+ l2 → NoDup l2 → NoDup l1.
Proof.
  intros Hsub Hnd. apply submseteq_Permutation in Hsub as [k Hk].
  rewrite Hk in Hnd. by apply NoDup_app in Hnd as [? _].
Qed.

Lemma ranked_Permutation (l : list (Z * Z)) : ranked l ≡ₚ l.
Proof. apply merge_sort_Permutation. Qed.

Lemma length_ranked (l : list (Z * Z)) : length (ranked l) = length l.
Proof. by rewrite ranked_Permutation. Qed.

Lemma top_of_ranked (n : nat) (l : list (Z * Z)) : take n (ranked l) ⊆+ l.
Proof.
  etrans; [apply sublist_submseteq, sublist_take|].
  apply Permutation_submseteq, ranked_Permutation.
Qed.

Lemma top_of_available n m row f drop :
  take n (ranked (available m row f drop)) ⊆+ map_to_list (pop m).
Proof.
  etrans; [apply top_of_ranked|]. apply sublist_submseteq, sublist_filter.
Qed.

Lemma top_is_available n m row f drop i :
  i ∈ (take n (ranked (available m row f drop))).*1 →
  i ∈ dom (pop m) ∧ (i ∉ drop) ∧ (f = true → i ∉ dom row).
Proof.
  intros Hi. apply list_elem_of_fmap in Hi as ([j v] & -> & Hjv).
  eapply elem_of_submseteq in Hjv; [|apply top_of_ranked].
  apply list_elem_of_filter in Hjv as [[Hd Hs] Hjv]. simpl in *.
  apply elem_of_map_to_list in Hjv. split; [|done].
  apply elem_of_dom. by exists v.
Qed.

Lemma pop_recommend_inv m u row k f drop ids rel :
  pop_recommend m u row k f drop = inr (ids, rel) →
  ids = (take (Z.to_nat k) (ranked (available m row f drop))).*1 ∧
  rel = (take (Z.to_nat k) (ranked (available m row f drop))).*2.
Proof. unfold pop_recommend. intros [= <- <-]. done. Qed.

#[global] Instance PopModel_contract : FactorModelContract Z PopModel.
Proof.
  split; simpl.
  - intros m u row k f drop ids rel Hk [-> _]%pop_recommend_inv.
    rewrite length_fmap, length_take. lia.
  - intros m u row k f drop ids rel [-> _]%pop_recommend_inv.
    eapply submseteq_NoDup; [|apply (NoDup_fst_map_to_list (pop m))].
    apply fmap_submseteq, top_of_available.
  - intros m us rows items ids rel Hnd. unfold pop_recommend_batch.
    case_decide as Hok; [|done]. intros [= <- <-].
    apply Forall_fmap, Forall_fmap, Forall_forall. intros row _. simpl.
    rewrite filter_all by done.
    rewrite Nat2Z.id, take_ge.
    + rewrite ranked_Permutation, <- list_fmap_compose.
      by rewrite <- (list_fmap_id items) at 2.
    + by rewrite length_ranked, length_fmap.
Qed.

(** [als.fit_predict(df, 1, users=[1])] of the docstring recommends item 3. *)
Example docstring_example :
  (_predict Z.add docstring_log 1 [1] [1; 2; 3] true fitted).1
  = inr [mkRow 1 3 1].
Proof. vm_compute. reflexivity. Qed.

End PopFacts.

(** ** The wrapper *)

Section WrapperFacts.
Context {R M : Type} `{!FactorModel R M}.
Variable reduce : R → R → R.

(** *** Frames and blocks *)

Lemma frame_rows_of_user (u : Z) (ids : list Z) (rel : list R) :
  frame_rows (mkFrame (replicate (length ids) u) ids rel)
  = zip_with (mkRow u) ids rel.
Proof.
  unfold frame_rows. simpl. revert rel.
  induction ids as [|i ids IH]; intros [|x rel]; simpl; try done.
  by rewrite IH.
Qed.

Lemma elem_of_user_rows (u : Z) (ids : list Z) (rel : list R) (r : Row R) :
  r ∈ zip_with (mkRow u) ids rel → user_idx r = u ∧ item_idx r ∈ ids.
Proof.
  intros (i & x & -> & Hi & _)%elem_of_zip_with. done.
Qed.

Lemma item_idx_user_rows (u : Z) (ids : list Z) (rel : list R) :
  length ids = length rel → item_idx <$> zip_with (mkRow u) ids rel = ids.
Proof.
  revert rel. induction ids as [|i ids IH]; intros [|x rel]; simpl; try done.
  intros [= Hlen]. by rewrite IH.
Qed.

Lemma length_user_rows (u : Z) (ids : list Z) (rel : list R) :
  length ids = length rel → length (zip_with (mkRow u) ids rel) = length ids.
Proof. intros Hlen. rewrite length_zip_with. lia. Qed.

Lemma block_app (l1 l2 : list (Row R)) (u : Z) :
  block (l1 ++ l2) u = block l1 u ++ block l2 u.
Proof. apply filter_app. Qed.

Lemma block_user_rows_same (u : Z) (ids : list Z) (rel : list R) :
  block (zip_with (mkRow u) ids rel) u = zip_with (mkRow u) ids rel.
Proof.
  unfold block. revert rel.
  induction ids as [|i ids IH]; intros [|x rel]; simpl; try done.
  rewrite filter_cons_True by done. by rewrite IH.
Qed.

Lemma block_user_rows_other (u v : Z) (ids : list Z) (rel : list R) :
  u ≠ v → block (zip_with (mkRow u) ids rel) v = [].
Proof.
  intros Hne. unfold block. revert rel.
  induction ids as [|i ids IH]; intros [|x rel]; simpl; try done.
  rewrite filter_cons_False by done. by rewrite IH.
Qed.

Lemma elem_of_block (rows : list (Row R)) (r : Row R) :
  r ∈ rows → r ∈ block rows (user_idx r).
Proof. intros Hr. by apply list_elem_of_filter. Qed.

(** *** Groups *)

Lemma group_head (users : list Z) (u : Z) :
  u ∈ users → head (filter (λ v, v = u) users) = Some u.
Proof.
  induction users as [|v users IH]; [by intros ?%elem_of_nil|].
  intros Hu. destruct (decide (v = u)) as [->|Hne].
  - by rewrite filter_cons_True.
  - rewrite filter_cons_False by done.
    apply elem_of_cons in Hu as [->|Hu]; [done|auto].
Qed.

(** *** One user *)

Lemma predict_by_user_inv mdl (A : csr R) k f drop g fr :
  predict_by_user mdl A k f drop g = inr fr →
  ∃ u ids rel,
    head g = Some u ∧
    recommend mdl u (row_of A u) k f drop = inr (ids, rel) ∧
    length ids = length rel ∧
    fr = mkFrame (replicate (length ids) u) ids rel.
Proof.
  destruct g as [|u g]; [done|]. simpl.
  destruct (recommend mdl u (row_of A u) k f drop) as [c|[ids rel]] eqn:Hrec;
    [done|].
  simpl. unfold pd_DataFrame. case_decide as Hlen; [|done].
  intros [= <-]. exists u, ids, rel. by destruct Hlen.
Qed.

Lemma predict_by_user_ok mdl (A : csr R) k f drop g u ids rel :
  head g = Some u →
  recommend mdl u (row_of A u) k f drop = inr (ids, rel) →
  length ids = length rel →
  predict_by_user mdl A k f drop g
  = inr (mkFrame (replicate (length ids) u) ids rel).
Proof.
  destruct g as [|v g]; [done|]. intros [= ->] Hrec Hlen. simpl.
  rewrite Hrec. simpl. unfold pd_DataFrame.
  rewrite length_replicate. by rewrite decide_True.
Qed.

(** *** All users *)

Lemma applyInPandas_inv (f : list Z → exn + Frame R) g groups rows :
  applyInPandas f (g :: groups) = inr rows →
  ∃ fr rest, f g = inr fr ∧ applyInPandas f groups = inr rest ∧
             rows = frame_rows fr ++ rest.
Proof.
  simpl. destruct (f g) as [e|fr]; [done|]. simpl.
  destruct (applyInPandas f groups) as [e|rest]; [done|]. simpl.
  intros [= <-]. by exists fr, rest.
Qed.

Lemma applyInPandas_blocks mdl (A : csr R) k f drop (G : Z → list Z) us rows :
  NoDup us →
  (∀ u, u ∈ us → head (G u) = Some u) →
  applyInPandas (predict_by_user mdl A k f drop) (G <$> us) = inr rows →
  ∀ u,
    (u ∈ us → ∃ ids rel,
        recommend mdl u (row_of A u) k f drop = inr (ids, rel) ∧
        length ids = length rel ∧
        block rows u = zip_with (mkRow u) ids rel) ∧
    (u ∉ us → block rows u = []).
Proof.
  revert rows. induction us as [|v us IH]; intros rows Hnd Hhead Hrows u.
  - simpl in Hrows. injection Hrows as <-. split; [by intros ?%elem_of_nil|done].
  - rewrite fmap_cons in Hrows.
    apply applyInPandas_inv in Hrows as (fr & rest & Hfr & Hrest & ->).
    apply NoDup_cons in Hnd as [Hv Hnd].
    apply predict_by_user_inv in Hfr as (v' & ids & rel & Hv' & Hrec & Hlen & ->).
    rewrite Hhead in Hv' by (apply elem_of_cons; auto). injection Hv' as <-.
    specialize (IH rest Hnd (λ w Hw, Hhead w (proj2 (elem_of_cons _ _ _) (or_intror Hw)))
                  Hrest).
    rewrite frame_rows_of_user, block_app. split.
    + intros [->|Hu]%elem_of_cons.
      * exists ids, rel. split; [done|]. split; [done|].
        rewrite block_user_rows_same.
        destruct (IH v) as [_ Hnil]. rewrite Hnil by done. by rewrite app_nil_r.
      * destruct (IH u) as [Hin _].
        destruct (Hin Hu) as (ids' & rel' & ? & ? & ->).
        exists ids', rel'. split; [done|]. split; [done|].
        rewrite block_user_rows_other; [done|]. by intros ->.
    + intros Hu. rewrite not_elem_of_cons in Hu. destruct Hu as [Hne Hu].
      rewrite block_user_rows_other by done.
      destruct (IH u) as [_ Hnil]. by rewrite Hnil.
Qed.

Lemma applyInPandas_succeeds mdl (A : csr R) k f drop (G : Z → list Z) us :
  (∀ u, u ∈ us → head (G u) = Some u) →
  (∀ u, u ∈ us → ∃ ids rel,
      recommend mdl u (row_of A u) k f drop = inr (ids, rel) ∧
      length ids = length rel) →
  ∃ rows, applyInPandas (predict_by_user mdl A k f drop) (G <$> us) = inr rows.
Proof.
  induction us as [|v us IH]; intros Hhead Hrec; [by eexists|].
  destruct (Hrec v) as (ids & rel & Hv & Hlen); [apply elem_of_cons; auto|].
  destruct IH as [rest Hrest].
  { intros w Hw. apply Hhead, elem_of_cons. auto. }
  { intros w Hw. apply Hrec, elem_of_cons. auto. }
  rewrite fmap_cons. simpl.
  erewrite predict_by_user_ok; [|apply Hhead, elem_of_cons; auto|done..].
  simpl. rewrite Hrest. simpl. by eexists.
Qed.

(** *** [_predict] *)

Lemma elem_of_items_to_drop (log : list (Row R)) (items : list Z) (i : Z) :
  i ∈ items_to_drop log items ↔ i ∈ item_idx <$> log ∧ i ∉ items.
Proof.
  unfold items_to_drop. rewrite elem_of_remove_dups, list_elem_of_filter.
  tauto.
Qed.

Lemma _predict_self log k users items f (self : ImplicitWrap R M) :
  (_predict reduce log k users items f self).2 = self.
Proof. done. Qed.

Lemma _predict_inv log k users items f (self self' : ImplicitWrap R M) rows :
  _predict reduce log k users items f self = (inr rows, self') →
  self' = self ∧ log ≠ [] ∧
  applyInPandas
    (predict_by_user (model self) (build reduce log) k f (items_to_drop log items))
    (groupby users) = inr rows.
Proof.
  unfold _predict. intros [= Hrows Hself]. split; [done|].
  destruct log as [|r log]; [done|]. split; [done|]. exact Hrows.
Qed.

Lemma _predict_blocks log k users items f (self self' : ImplicitWrap R M) rows :
  _predict reduce log k users items f self = (inr rows, self') →
  ∀ u,
    (u ∈ users → ∃ ids rel,
        recommend (model self) u (row_of (build reduce log) u) k f
          (items_to_drop log items) = inr (ids, rel) ∧
        length ids = length rel ∧
        block rows u = zip_with (mkRow u) ids rel) ∧
    (u ∉ users → block rows u = []).
Proof.
  intros Hp u. apply _predict_inv in Hp as (_ & _ & Hrows).
  unfold groupby in Hrows.
  eapply applyInPandas_blocks in Hrows; [|apply NoDup_remove_dups|].
  - rewrite elem_of_remove_dups in Hrows. exact Hrows.
  - intros v Hv. rewrite elem_of_remove_dups in Hv. by apply group_head.
Qed.

Lemma _predict_row log k users items f (self self' : ImplicitWrap R M) rows r :
  _predict reduce log k users items f self = (inr rows, self') →
  r ∈ rows →
  user_idx r ∈ users ∧
  ∃ ids rel,
    recommend (model self) (user_idx r) (row_of (build reduce log) (user_idx r))
      k f (items_to_drop log items) = inr (ids, rel) ∧
    item_idx r ∈ ids.
Proof.
  intros Hp Hr. pose proof (_predict_blocks _ _ _ _ _ _ _ _ Hp (user_idx r)) as [Hin Hout].
  apply elem_of_block in Hr.
  destruct (decide (user_idx r ∈ users)) as [Hu|Hu].
  - split; [done|]. destruct (Hin Hu) as (ids & rel & Hrec & _ & Hb).
    exists ids, rel. split; [done|]. rewrite Hb in Hr.
    by apply elem_of_user_rows in Hr as [_ ?].
  - rewrite (Hout Hu) in Hr. by apply elem_of_nil in Hr.
Qed.

Lemma _predict_succeeds log k users items f (self : ImplicitWrap R M) :
  log ≠ [] →
  (∀ u, u ∈ users → ∃ ids rel,
      recommend (model self) u (row_of (build reduce log) u) k f
        (items_to_drop log items) = inr (ids, rel) ∧
      length ids = length rel) →
  ∃ rows, _predict reduce log k users items f self = (inr rows, self).
Proof.
  intros Hlog Hrec. unfold _predict. rewrite to_csr_nonempty by done. simpl.
  unfold groupby.
  destruct (applyInPandas_succeeds (model self) (build reduce log) k f
              (items_to_drop log items) (λ u, filter (λ v, v = u) users)
              (remove_dups users)) as [rows ->]; [| |by eexists].
  - intros u Hu. rewrite elem_of_remove_dups in Hu. by apply group_head.
  - intros u Hu. rewrite elem_of_remove_dups in Hu. by apply Hrec.
Qed.

Lemma predict_by_user_not_InvalidKError mdl (A : csr R) k f drop g :
  predict_by_user mdl A k f drop g ≠ inl InvalidKError.
Proof.
  destruct g as [|u g]; [done|]. simpl.
  destruct (recommend mdl u (row_of A u) k f drop) as [c|[ids rel]]; [done|].
  simpl. unfold pd_DataFrame. by case_decide.
Qed.

Lemma applyInPandas_not_InvalidKError mdl (A : csr R) k f drop groups :
  applyInPandas (predict_by_user mdl A k f drop) groups ≠ inl InvalidKError.
Proof.
  induction groups as [|g groups IH]; [done|]. simpl.
  pose proof (predict_by_user_not_InvalidKError mdl A k f drop g) as Hg.
  destruct (predict_by_user mdl A k f drop g) as [e|fr]; simpl; [congruence|].
  destruct (applyInPandas _ groups) as [e|rest]; simpl; [congruence|done].
Qed.

End WrapperFacts.

(** ** Top-k recommendation *)

Section Recommend.
Context {R M : Type} `{!FactorModel R M}.
Variable reduce : R → R → R.


(** C3, as the code has it. With [filter_seen_items = true] the call returns
    whenever the log has interactions and the model answers every requested
    user with two arrays of one length, however short. For every requested
    user the model is asked with the flag on and the user's row of [log], whose
    stored items are the items the user has an interaction with; the user's
    rows are that answer, item for item. The wrapper removes no seen item: no
    row of the user is an interaction of the user in [log] when the answer
    holds no item stored in that row. *)
Theorem seen_items_are_left_to_the_model
  log k users items (self : ImplicitWrap R M) :
  (log ≠ [] →
   (∀ u, u ∈ users → ∃ ids rel,
       recommend (model self) u (row_of (build reduce log) u) k true
         (items_to_drop log items) = inr (ids, rel) ∧
       length ids = length rel) →
   ∃ rows, _predict reduce log k users items true self = (inr rows, self)) ∧
  ∀ rows self',
    _predict reduce log k users items true self = (inr rows, self') →
    ∀ u, u ∈ users → ∃ ids rel,
      recommend (model self) u (row_of (build reduce log) u) k true
        (items_to_drop log items) = inr (ids, rel) ∧
      (∀ i, i ∈ dom (row_of (build reduce log) u) ↔ seen log u i) ∧
      block rows u = zip_with (mkRow u) ids rel ∧
      length (block rows u) = length ids ∧
      ((∀ i, i ∈ ids → i ∉ dom (row_of (build reduce log) u)) →
       ∀ r, r ∈ block rows u → ¬ seen log (user_idx r) (item_idx r)).
Proof.
  split; [apply _predict_succeeds|].
  intros rows self' Hp u Hu.
  destruct (_predict_blocks reduce _ _ _ _ _ _ _ _ Hp u) as [Hin _].
  destruct (Hin Hu) as (ids & rel & Hrec & Hlen & Hb).
  exists ids, rel. split; [done|]. split; [apply build_stored|].
  split; [done|]. rewrite Hb. split; [by apply length_user_rows|].
  intros Hclear r [-> Hi]%elem_of_user_rows Hseen.
  apply (Hclear _ Hi). by apply build_stored.
Qed.

(** C4, as the code has it. A requested user without interactions in [log]
    has an all-zero row, and looking it up is no error: when the model answers
    for that row, the user's frame is built. The model is asked with the empty
    row, the flag as given and the list of the items of [log] that are not in
    [items], and the user's rows are its answer. The row stores nothing the
    filter could exclude; the wrapper removes no item, so a row of the user
    whose item occurs in [log] is a candidate when the answer keeps clear of
    that list. *)
Theorem cold_user_is_scored_on_a_zero_row
  log k users items f (self : ImplicitWrap R M) u :
  u ∈ users →
  (∀ r, r ∈ log → user_idx r ≠ u) →
  row_of (build reduce log) u = ∅ ∧
  (∀ i, i ∉ dom (row_of (build reduce log) u)) ∧
  (∀ i, i ∈ items_to_drop log items ↔ i ∈ item_idx <$> log ∧ i ∉ items) ∧
  (∀ g ids rel,
     recommend (model self) u ∅ k f (items_to_drop log items) = inr (ids, rel) →
     length ids = length rel →
     predict_by_user (model self) (build reduce log) k f
       (items_to_drop log items) (u :: g)
     = inr (mkFrame (replicate (length ids) u) ids rel)) ∧
  ∀ rows self',
    _predict reduce log k users items f self = (inr rows, self') →
    ∃ ids rel,
      recommend (model self) u ∅ k f (items_to_drop log items) = inr (ids, rel) ∧
      block rows u = zip_with (mkRow u) ids rel ∧
      ((∀ i, i ∈ ids → i ∉ items_to_drop log items) →
       ∀ r, r ∈ block rows u →
            item_idx r ∈ item_idx <$> log → item_idx r ∈ items).
Proof.
  intros Hu Hcold.
  pose proof (build_cold_row reduce log u Hcold) as Hrow.
  split; [done|]. split; [by rewrite Hrow|].
  split; [apply elem_of_items_to_drop|]. split.
  - intros g ids rel Hrec Hlen. apply predict_by_user_ok; [done| |done].
    by rewrite Hrow.
  - intros rows self' Hp.
    destruct (_predict_blocks reduce _ _ _ _ _ _ _ _ Hp u) as [Hin _].
    destruct (Hin Hu) as (ids & rel & Hrec & Hlen & Hb).
    rewrite Hrow in Hrec. exists ids, rel. split; [done|]. split; [done|].
    rewrite Hb. intros Hclear r [_ Hi]%elem_of_user_rows Hlog.
    destruct (decide (item_idx r ∈ items)) as [|Hout]; [done|].
    destruct (Hclear _ Hi). by apply elem_of_items_to_drop.
Qed.


(** C6, as the code has it. [_predict] does not validate [k]: with [k <= 0]
    it does not fail with InvalidKError and leaves the instance as it was; [k]
    goes to the model unchanged, and the call returns rows whenever the log has
    interactions and the model answers every requested user with two arrays of
    one length. *)
Theorem k_is_not_validated log k users items f (self : ImplicitWrap R M) :
  k ≤ 0 →
  (_predict reduce log k users items f self).1 ≠ inl InvalidKError ∧
  (_predict reduce log k users items f self).2 = self ∧
  (log ≠ [] →
   (∀ u, u ∈ users → ∃ ids rel,
       recommend (model self) u (row_of (build reduce log) u) k f
         (items_to_drop log items) = inr (ids, rel) ∧
       length ids = length rel) →
   ∃ rows, (_predict reduce log k users items f self).1 = inr rows).
Proof.
  intros _. split; [|split; [done|]].
  - unfold _predict. simpl. destruct log as [|r log]; [done|]. simpl.
    apply applyInPandas_not_InvalidKError.
  - intros Hlog Hrec.
    destruct (_predict_succeeds reduce log k users items f self Hlog Hrec)
      as [rows ->].
    by exists rows.
Qed.

(** C8. Two calls of [_predict] in a row with the same arguments on a fitted
    instance: the first leaves the instance as it found it, the second has the
    outcome of the first, and so the same (user, item) pairs with the same
    relevance. *)
Theorem predict_twice log k users items f (self : ImplicitWrap R M) :
  let first := _predict reduce log k users items f self in
  let second := _predict reduce log k users items f first.2 in
  first.2 = self ∧ second = first ∧
  ∀ rows1 rows2, first.1 = inr rows1 → second.1 = inr rows2 →
    rows1 = rows2 ∧ ∀ p, p ∈ identity <$> rows1 ↔ p ∈ identity <$> rows2.
Proof.
  intros first second.
  assert (first.2 = self) as Hself by apply _predict_self.
  assert (second = first) as Hsame by (unfold second; by rewrite Hself).
  split; [done|]. split; [done|]. rewrite Hsame.
  intros rows1 rows2 H1 H2. rewrite H1 in H2. injection H2 as <-. done.
Qed.

(** C9. Every row [_predict] returns carries a requested user; a frame
    [predict_by_user] builds has three columns of one length, the user column
    repeating the user of the group; and the rows of a requested user are, in
    order, the items and scores the model returned for that user's row of the
    matrix. *)
Theorem rows_belong_to_scored_user
  log k users items f (self self' : ImplicitWrap R M) rows :
  _predict reduce log k users items f self = (inr rows, self') →
  (∀ r, r ∈ rows → user_idx r ∈ users) ∧
  (∀ g fr,
     predict_by_user (model self) (build reduce log) k f
       (items_to_drop log items) g = inr fr →
     length (col_user_idx fr) = length (col_item_idx fr) ∧
     length (col_item_idx fr) = length (col_relevance fr) ∧
     ∃ u, head g = Some u ∧
          col_user_idx fr = replicate (length (col_item_idx fr)) u) ∧
  (∀ u, u ∈ users → ∃ ids rel,
     recommend (model self) u (row_of (build reduce log) u) k f
       (items_to_drop log items) = inr (ids, rel) ∧
     length ids = length rel ∧
     block rows u = zip_with (mkRow u) ids rel).
Proof.
  intros Hp. split; [|split].
  - intros r Hr. by destruct (_predict_row reduce _ _ _ _ _ _ _ _ _ Hp Hr) as [? _].
  - intros g fr (u & ids & rel & Hg & _ & Hlen & ->)%predict_by_user_inv. simpl.
    rewrite length_replicate. split; [done|]. split; [done|]. by exists u.
  - intros u Hu. by destruct (_predict_blocks reduce _ _ _ _ _ _ _ _ Hp u) as [Hin _]; auto.
Qed.

End Recommend.

(** ** Pairwise scoring, fitting and loading *)

Section ScorePairs.
Context {R M : Type} `{!FactorModel R M}.
Variable reduce : R → R → R.

Lemma via_float64_exact (z : Z) : Z.abs z ≤ 2 ^ 53 → via_float64 z = z.
Proof. intros Hz. unfold via_float64. by rewrite (proj2 (Z.leb_le _ _) Hz). Qed.

Lemma identity_grid_row (u : Z) (m : nat) (g : list Z) (r : list R) :
  length g = m → length r = m →
  via_float64 u = u → Forall (λ i, via_float64 i = i) g →
  identity <$> zip_with (λ u ir, mkRow (via_float64 u) (via_float64 ir.1) ir.2)
                 (replicate m u) (zip g r)
  = (u,.) <$> g.
Proof.
  intros Hg Hr Hu. revert m r Hg Hr.
  induction g as [|i g IH]; intros m r Hg Hr Hex.
  - by destruct m.
  - destruct m as [|m]; [done|]. destruct r as [|x r]; [done|].
    apply Forall_cons in Hex as [Hi Hex]. simpl in *.
    unfold identity at 1. simpl. rewrite Hu, Hi. f_equal.
    apply IH; [lia|lia|done].
Qed.

Lemma identity_stacked (users items : list Z) (ig : list (list Z))
  (rel : list (list R)) :
  has_shape (length users) (length items) ig →
  has_shape (length users) (length items) rel →
  Forall (λ g, g ≡ₚ items) ig →
  Forall (λ u, via_float64 u = u) users →
  Forall (λ i, via_float64 i = i) items →
  identity <$> stacked ((λ u, replicate (length items) u) <$> users) ig rel
  ≡ₚ cprod users items.
Proof.
  unfold stacked, has_shape. intros [Hn Hm] [Hn' Hm'] Hperm Hus His.
  revert ig rel Hn Hm Hn' Hm' Hperm.
  induction users as [|u users IH]; intros ig rel Hn Hm Hn' Hm' Hperm; [done|].
  destruct ig as [|g ig]; [done|]. destruct rel as [|r rel]; [done|].
  apply Forall_cons in Hm as [Hg Hm]. apply Forall_cons in Hm' as [Hr Hm'].
  apply Forall_cons in Hperm as [Hgp Hperm]. apply Forall_cons in Hus as [Hu Hus].
  simpl in *. rewrite fmap_app. apply Permutation_app.
  - rewrite identity_grid_row; [by rewrite Hgp|done..|by rewrite Hgp].
  - apply IH; [done|lia|done|lia|done..].
Qed.

Lemma _predict_pairs_self pairs log (self : ImplicitWrap R M) :
  (_predict_pairs reduce pairs log self).2 = self.
Proof. done. Qed.

(** What a call that returns has gone through. *)
Lemma _predict_pairs_inv pairs log (self self' : ImplicitWrap R M) rows :
  _predict_pairs reduce pairs log self = (inr rows, self') →
  let users := remove_dups pairs.*1 in
  let items := remove_dups pairs.*2 in
  ∃ matrix item_grid rel,
    match log with
    | Some l => to_csr reduce l = inr matrix
    | None => cached self = Some matrix
    end ∧
    recommend_batch (model self) users (row_of matrix <$> users)
      (Z.of_nat (length items)) false items = inr (item_grid, rel) ∧
    has_shape (length users) (length items) item_grid ∧
    has_shape (length users) (length items) rel ∧
    rows = stacked ((λ u, replicate (length items) u) <$> users) item_grid rel.
Proof.
  unfold _predict_pairs. intros [= Hrows _]. revert Hrows.
  set (users := remove_dups pairs.*1). set (items := remove_dups pairs.*2).
  intros Hrows.
  assert (∃ matrix,
    match log with
    | Some l => to_csr reduce l = inr matrix
    | None => cached self = Some matrix
    end ∧
    (model_call (recommend_batch (model self) users (row_of matrix <$> users)
                   (Z.of_nat (length items)) false items)
     ≫= λ '(item_grid, rel),
          np_stack_rows (length users) (length items)
            ((λ u, replicate (length items) u) <$> users) item_grid rel)
    = inr rows) as (matrix & Hm & Hcall).
  { destruct log as [l|].
    - destruct (to_csr reduce l) as [e|matrix]; [done|]. by exists matrix.
    - simpl in Hrows. destruct (cached self) as [matrix|]; [|done].
      by exists matrix. }
  clear Hrows. exists matrix.
  destruct (recommend_batch (model self) users (row_of matrix <$> users)
              (Z.of_nat (length items)) false items) as [c|[item_grid rel]];
    [done|].
  simpl in Hcall. unfold np_stack_rows in Hcall.
  case_decide as Hshape; [|done]. injection Hcall as <-.
  exists item_grid, rel. by destruct Hshape as (_ & ? & ?).
Qed.

Lemma _predict_pairs_not_TypeError pairs (self : ImplicitWrap R M) matrix :
  cached self = Some matrix →
  (_predict_pairs reduce pairs None self).1 ≠ inl TypeError.
Proof.
  intros Hc. unfold _predict_pairs. simpl. rewrite Hc. simpl.
  destruct (recommend_batch _ _ _ _ _ _) as [c|[item_grid rel]]; [done|].
  simpl. unfold np_stack_rows. by case_decide.
Qed.

Lemma _fit_nonempty log (self : ImplicitWrap R M) :
  log ≠ [] →
  _fit reduce log self
  = (match (fit (model self) (build reduce log)).2 with
     | Some code => inl (ModelError code)
     | None => inr ()
     end,
     mkImplicitWrap (fit (model self) (build reduce log)).1
       (Some (fresh (dom (heap self))))
       (<[fresh (dom (heap self)) := build reduce log]> (heap self))).
Proof. intros Hlog. unfold _fit. by rewrite to_csr_nonempty. Qed.

Lemma _fit_cached log (self : ImplicitWrap R M) :
  log ≠ [] → cached (_fit reduce log self).2 = Some (build reduce log).
Proof.
  intros Hlog. rewrite _fit_nonempty by done. unfold cached. simpl.
  by rewrite lookup_insert_eq.
Qed.

(** No method leaves a dangling reference behind, so an instance that was
    fitted always has its matrix. *)
Lemma wf_init mdl h : wf (__init__ (R:=R) (M:=M) mdl h).
Proof. by intros ℓ. Qed.

Lemma wf_fit log (self : ImplicitWrap R M) :
  wf self → wf (_fit reduce log self).2.
Proof.
  intros Hwf. unfold _fit. destruct (to_csr reduce log) as [e|matrix]; [done|].
  simpl. intros ℓ [= <-]. simpl. rewrite dom_insert. set_solver.
Qed.

Lemma wf_load path fs (self : ImplicitWrap R M) :
  wf self → wf (_load_model path fs self).2.
Proof. intros Hwf. unfold _load_model. by destruct (fs !! path). Qed.

Lemma wf_cached (self : ImplicitWrap R M) :
  wf self → is_Some (csr_log self) → is_Some (cached self).
Proof.
  intros Hwf [ℓ Hℓ]. unfold cached. rewrite Hℓ. simpl.
  apply elem_of_dom. by apply Hwf.
Qed.

(** C1, as the code has it. A call of [_predict_pairs] that returns, on pairs
    whose ids float64 holds exactly, returns one row for every combination of
    a distinct user of [pairs] with a distinct item of [pairs], and nothing
    else: every input pair has its row, no (user, item) identity comes twice,
    and the rows are those of the input pairs only when [pairs] is itself such
    a grid. *)
Theorem score_pairs_returns_the_grid `{!FactorModelContract R M}
  pairs log (self self' : ImplicitWrap R M) rows :
  _predict_pairs reduce pairs log self = (inr rows, self') →
  (∀ p, p ∈ pairs → Z.abs p.1 ≤ 2 ^ 53 ∧ Z.abs p.2 ≤ 2 ^ 53) →
  identity <$> rows ≡ₚ cprod (remove_dups pairs.*1) (remove_dups pairs.*2) ∧
  NoDup (identity <$> rows) ∧
  (∀ p, p ∈ pairs → p ∈ identity <$> rows) ∧
  (∀ u i, (u, i) ∈ identity <$> rows ↔ u ∈ pairs.*1 ∧ i ∈ pairs.*2).
Proof.
  intros Hp Hexact.
  apply _predict_pairs_inv in Hp as (matrix & ig & rel & _ & Hrec & Hig & Hrel & ->).
  assert (identity <$> stacked
            ((λ u, replicate (length (remove_dups pairs.*2)) u)
               <$> remove_dups pairs.*1) ig rel
          ≡ₚ cprod (remove_dups pairs.*1) (remove_dups pairs.*2)) as Hgrid.
  { apply identity_stacked; [done|done| | |].
    - eapply recommend_batch_dense; [apply NoDup_remove_dups|exact Hrec].
    - apply Forall_forall. intros u Hu. rewrite elem_of_remove_dups in Hu.
      apply list_elem_of_fmap in Hu as (p & -> & Hp).
      apply via_float64_exact. by apply Hexact.
    - apply Forall_forall. intros i Hi. rewrite elem_of_remove_dups in Hi.
      apply list_elem_of_fmap in Hi as (p & -> & Hp).
      apply via_float64_exact. by apply Hexact. }
  split; [done|]. rewrite Hgrid. setoid_rewrite Hgrid. split; [|split].
  - apply NoDup_bind; [|intros u _|apply NoDup_remove_dups].
    + intros u1 u2 [v i] _ _ H1 H2.
      apply list_elem_of_fmap in H1 as (? & [= -> _] & _).
      by apply list_elem_of_fmap in H2 as (? & [= -> _] & _).
    + apply NoDup_fmap; [|apply NoDup_remove_dups]. by intros ?? [=].
  - intros [u i] Hp. rewrite list_elem_of_cprod, !elem_of_remove_dups. simpl.
    split; apply list_elem_of_fmap; by exists (u, i).
  - intros u i. by rewrite list_elem_of_cprod, !elem_of_remove_dups.
Qed.

Lemma _predict_pairs_returns pairs log (self : ImplicitWrap R M) matrix
  item_grid rel :
  match log with
  | Some l => to_csr reduce l = inr matrix
  | None => cached self = Some matrix
  end →
  recommend_batch (model self) (remove_dups pairs.*1)
    (row_of matrix <$> remove_dups pairs.*1)
    (Z.of_nat (length (remove_dups pairs.*2))) false (remove_dups pairs.*2)
    = inr (item_grid, rel) →
  has_shape (length (remove_dups pairs.*1)) (length (remove_dups pairs.*2))
    item_grid →
  has_shape (length (remove_dups pairs.*1)) (length (remove_dups pairs.*2)) rel →
  _predict_pairs reduce pairs log self
  = (inr (stacked ((λ u, replicate (length (remove_dups pairs.*2)) u)
                     <$> remove_dups pairs.*1) item_grid rel), self).
Proof.
  intros Hm Hrec Hig Hrel. unfold _predict_pairs. f_equal.
  assert (match log with
          | Some l => matrix ← to_csr reduce l; mret (Some matrix)
          | None => inr (cached self)
          end = inr (Some matrix)) as ->.
  { destruct log as [l|]; [by rewrite Hm|by rewrite Hm]. }
  simpl. rewrite Hrec. simpl. unfold np_stack_rows.
  rewrite decide_True; [done|]. split; [|done].
  unfold has_shape. rewrite length_fmap. split; [done|].
  apply Forall_fmap, Forall_forall. intros u _. simpl. apply length_replicate.
Qed.

(** C7. A fit on a log with interactions, whether the model's own fit
    returns or raises, caches a matrix built from that log alone, under a
    reference no earlier matrix has, and every matrix that was there before,
    the previously cached one among them, is what it was. [_predict_pairs]
    leaves the instance as it finds it, and returns rows exactly when the
    model answers, with arrays of the shape of the grid, the batch call made
    on the rows of one matrix: the cached one when no log is given, a matrix
    built from the log when one is given, whatever is cached; the rows are
    that answer. *)
Theorem fit_replaces_the_cached_matrix log (self : ImplicitWrap R M) :
  log ≠ [] →
  let self' := (_fit reduce log self).2 in
  ((_fit reduce log self).1 = inr () ∨
   ∃ code, (_fit reduce log self).1 = inl (ModelError code)) ∧
  cached self' = Some (build reduce log) ∧
  (∀ ℓ, csr_log self' = Some ℓ → ℓ ∉ dom (heap self)) ∧
  (∀ ℓ matrix, heap self !! ℓ = Some matrix → heap self' !! ℓ = Some matrix) ∧
  (∀ pairs given (s : ImplicitWrap R M) rows,
     let users := remove_dups pairs.*1 in
     let items := remove_dups pairs.*2 in
     (_predict_pairs reduce pairs given s).2 = s ∧
     ((_predict_pairs reduce pairs given s).1 = inr rows ↔
      ∃ matrix item_grid rel,
        match given with
        | Some l => l ≠ [] ∧ matrix = build reduce l
        | None => cached s = Some matrix
        end ∧
        recommend_batch (model s) users (row_of matrix <$> users)
          (Z.of_nat (length items)) false items = inr (item_grid, rel) ∧
        has_shape (length users) (length items) item_grid ∧
        has_shape (length users) (length items) rel ∧
        rows = stacked ((λ u, replicate (length items) u) <$> users)
                 item_grid rel)).
Proof.
  intros Hlog self'. subst self'. split.
  { rewrite _fit_nonempty by done. simpl.
    destruct (fit (model self) (build reduce log)).2 as [code|];
      [right; by exists code|by left]. }
  split; [by apply _fit_cached|]. split; [|split].
  - rewrite _fit_nonempty by done. simpl. intros ℓ [= <-].
    apply is_fresh.
  - rewrite _fit_nonempty by done. simpl. intros ℓ matrix Hℓ.
    rewrite lookup_insert_ne; [done|]. intros <-.
    apply (is_fresh (dom (heap self))). apply elem_of_dom. by exists matrix.
  - intros pairs given s rows users items. split; [done|]. split.
    + intros Hrows.
      assert (_predict_pairs reduce pairs given s = (inr rows, s)) as Hp.
      { rewrite (surjective_pairing (_predict_pairs _ _ _ _)). by rewrite Hrows. }
      apply _predict_pairs_inv in Hp
        as (matrix & ig & rel & Hm & Hrec & Hig & Hrel & ->).
      exists matrix, ig, rel. split; [|done].
      destruct given as [l|]; [|done]. destruct l as [|r l]; [done|].
      injection Hm as <-. done.
    + intros (matrix & ig & rel & Hm & Hrec & Hig & Hrel & ->).
      erewrite _predict_pairs_returns; [done| |exact Hrec|done|done].
      destruct given as [l|]; [|done]. destruct Hm as [Hl ->].
      by apply to_csr_nonempty.
Qed.

(** C10. A new instance has no cached matrix; loading replaces the model and
    nothing else; and [_predict_pairs] without a log fails with a TypeError,
    before the model is asked anything, on every instance without a cached
    matrix: a new one, and a new one a model was loaded into. After a fit on a
    log with interactions it does not. *)
Theorem score_pairs_without_log_needs_a_fit
  mdl h path fs pairs (self : ImplicitWrap R M) :
  csr_log (__init__ mdl h) = None ∧
  (csr_log (_load_model path fs self).2 = csr_log self ∧
   heap (_load_model path fs self).2 = heap self ∧
   ∀ loaded, fs !! path = Some loaded →
     model (_load_model path fs self).2 = loaded) ∧
  (csr_log self = None →
   _predict_pairs reduce pairs None self = (inl TypeError, self)) ∧
  _predict_pairs reduce pairs None (__init__ mdl h)
    = (inl TypeError, __init__ mdl h) ∧
  (_predict_pairs reduce pairs None (_load_model path fs (__init__ mdl h)).2).1
    = inl TypeError ∧
  (∀ log, log ≠ [] →
     (_predict_pairs reduce pairs None (_fit reduce log self).2).1
     ≠ inl TypeError).
Proof.
  assert (∀ s : ImplicitWrap R M, csr_log s = None →
            _predict_pairs reduce pairs None s = (inl TypeError, s)) as Hnone.
  { intros s Hs. unfold _predict_pairs, cached. simpl. by rewrite Hs. }
  split; [done|]. split; [|split; [by apply Hnone|split; [by apply Hnone|split]]].
  - unfold _load_model. destruct (fs !! path) as [loaded|]; simpl; [|done].
    split; [done|]. split; [done|]. by intros ? [= <-].
  - rewrite Hnone; [done|]. unfold _load_model.
    by destruct (fs !! path).
  - intros log Hlog. eapply _predict_pairs_not_TypeError. by apply _fit_cached.
Qed.

End ScorePairs.

(** ** The theorems at work on the popularity model *)

Import Pop PopFacts.

Ltac by_computation := vm_compute; first [reflexivity | exact I | done].
Ltac decided := apply (bool_decide_unpack _); by_computation.
Ltac each_row := apply Forall_forall; repeat constructor; by_computation || done.



(** User 1 has seen the only candidate, so no candidate is left, and two rows
    are returned all the same: items 2 and 3, which the model knows from its
    fit. *)
Lemma seen_filter_counterexample :
  ∃ rows,
    (_predict Z.add [mkRow 1 1 1] 2 [1] [1] true fitted).1 = inr rows ∧
    (∀ i, i ∈ [1] → seen [mkRow 1 1 1] 1 i) ∧
    ¬ (Z.of_nat (length (block rows 1)) < 2).
Proof.
  exists [mkRow 1 2 2; mkRow 1 3 1].
  split; [by_computation|]. split.
  - intros i ->%list_elem_of_singleton. exists (mkRow 1 1 1).
    split; [apply list_elem_of_singleton|]; done.
  - by_computation.
Qed.

Lemma seen_items_are_left_to_the_model_witness :
  _predict Z.add docstring_log 2 [1; 2] [1; 2; 3] true fitted
  = (inr [mkRow 1 3 1; mkRow 2 1 1], fitted) ∧
  ∀ u, u ∈ [1; 2] → ∃ ids rel,
    recommend (model fitted) u (row_of (build Z.add docstring_log) u) 2 true
      (items_to_drop docstring_log [1; 2; 3]) = inr (ids, rel) ∧
    (∀ i, i ∈ dom (row_of (build Z.add docstring_log) u) ↔ seen docstring_log u i) ∧
    block [mkRow 1 3 1; mkRow 2 1 1] u = zip_with (mkRow u) ids rel ∧
    length (block [mkRow 1 3 1; mkRow 2 1 1] u) = length ids ∧
    ((∀ i, i ∈ ids → i ∉ dom (row_of (build Z.add docstring_log) u)) →
     ∀ r, r ∈ block [mkRow 1 3 1; mkRow 2 1 1] u →
          ¬ seen docstring_log (user_idx r) (item_idx r)).
Proof.
  split; [by_computation|].
  destruct (seen_items_are_left_to_the_model Z.add docstring_log 2 [1; 2]
              [1; 2; 3] fitted) as [_ Hrows].
  apply (Hrows [mkRow 1 3 1; mkRow 2 1 1] fitted). by_computation.
Defined.

(** User 0 has no interaction in the log, the only candidate is item 1, and
    the user is recommended item 2. *)
Lemma cold_user_counterexample :
  ∃ rows r,
    (_predict Z.add [mkRow 1 1 1] 2 [0] [1] true fitted).1 = inr rows ∧
    (∀ x, x ∈ [mkRow 1 1 1] → user_idx x ≠ 0) ∧
    r ∈ rows ∧ user_idx r = 0 ∧ item_idx r ∉ [1].
Proof.
  exists [mkRow 0 2 2; mkRow 0 1 1], (mkRow 0 2 2).
  split; [by_computation|]. split; [each_row|].
  split; [set_solver|]. split; [done|simpl; decided].
Qed.

(** User 0 has no interaction in the docstring log; item 3 is in the log and
    not a candidate. *)
Lemma cold_user_is_scored_on_a_zero_row_witness :
  0 ∈ [1; 0] ∧
  (∀ r, r ∈ docstring_log → user_idx r ≠ 0) ∧
  _predict Z.add docstring_log 3 [1; 0] [1; 2] true fitted
  = (inr [mkRow 0 2 2; mkRow 0 1 1], fitted) ∧
  row_of (build Z.add docstring_log) 0 = ∅ ∧
  ∃ ids rel,
    recommend (model fitted) 0 ∅ 3 true (items_to_drop docstring_log [1; 2])
    = inr (ids, rel) ∧
    block [mkRow 0 2 2; mkRow 0 1 1] 0 = zip_with (mkRow 0) ids rel ∧
    ((∀ i, i ∈ ids → i ∉ items_to_drop docstring_log [1; 2]) →
     ∀ r, r ∈ block [mkRow 0 2 2; mkRow 0 1 1] 0 →
          item_idx r ∈ item_idx <$> docstring_log → item_idx r ∈ [1; 2]).
Proof.
  assert (∀ r, r ∈ docstring_log → user_idx r ≠ 0) as Hcold by each_row.
  split; [decided|]. split; [exact Hcold|]. split; [by_computation|].
  destruct (cold_user_is_scored_on_a_zero_row Z.add docstring_log 3 [1; 0]
              [1; 2] true fitted 0) as (Hrow & _ & _ & _ & Hrows);
    [decided|exact Hcold|].
  split; [exact Hrow|].
  apply (Hrows [mkRow 0 2 2; mkRow 0 1 1] fitted). by_computation.
Defined.


(** With [k = 0] the call returns, an empty relation on this model. *)
Lemma invalid_k_counterexample :
  ¬ (∀ k, k ≤ 0 →
       (_predict Z.add docstring_log k [1] [1; 2; 3] true fitted).1
       = inl InvalidKError).
Proof.
  intros Hfail. specialize (Hfail 0 (Z.le_refl 0)).
  vm_compute in Hfail. discriminate Hfail.
Qed.

Lemma k_is_not_validated_witness :
  0 ≤ 0 ∧
  (_predict Z.add docstring_log 0 [1] [1; 2; 3] true fitted).1 ≠ inl InvalidKError ∧
  (_predict Z.add docstring_log 0 [1] [1; 2; 3] true fitted).2 = fitted ∧
  (docstring_log ≠ [] →
   (∀ u, u ∈ [1] → ∃ ids rel,
       recommend (model fitted) u (row_of (build Z.add docstring_log) u) 0 true
         (items_to_drop docstring_log [1; 2; 3]) = inr (ids, rel) ∧
       length ids = length rel) →
   ∃ rows, (_predict Z.add docstring_log 0 [1] [1; 2; 3] true fitted).1 = inr rows).
Proof.
  split; [lia|].
  apply (k_is_not_validated Z.add docstring_log 0 [1] [1; 2; 3] true fitted). lia.
Defined.

Lemma predict_twice_witness :
  let first := _predict Z.add docstring_log 1 [1] [1; 2; 3] true fitted in
  let second := _predict Z.add docstring_log 1 [1] [1; 2; 3] true first.2 in
  first.1 = inr [mkRow 1 3 1] ∧
  first.2 = fitted ∧ second = first ∧
  ∀ rows1 rows2, first.1 = inr rows1 → second.1 = inr rows2 →
    rows1 = rows2 ∧ ∀ p, p ∈ identity <$> rows1 ↔ p ∈ identity <$> rows2.
Proof.
  intros first second. split; [by_computation|].
  apply (predict_twice Z.add docstring_log 1 [1] [1; 2; 3] true fitted).
Defined.

Lemma rows_belong_to_scored_user_witness :
  _predict Z.add docstring_log 2 [1; 2] [1; 2] false fitted
  = (inr [mkRow 1 2 2; mkRow 1 1 1; mkRow 2 2 2; mkRow 2 1 1], fitted) ∧
  (∀ r, r ∈ [mkRow 1 2 2; mkRow 1 1 1; mkRow 2 2 2; mkRow 2 1 1] →
        user_idx r ∈ [1; 2]) ∧
  (∀ u, u ∈ [1; 2] → ∃ ids rel,
     recommend (model fitted) u (row_of (build Z.add docstring_log) u) 2 false
       (items_to_drop docstring_log [1; 2]) = inr (ids, rel) ∧
     length ids = length rel ∧
     block [mkRow 1 2 2; mkRow 1 1 1; mkRow 2 2 2; mkRow 2 1 1] u
     = zip_with (mkRow u) ids rel).
Proof.
  split; [by_computation|].
  destruct (rows_belong_to_scored_user Z.add docstring_log 2 [1; 2] [1; 2] false
              fitted fitted [mkRow 1 2 2; mkRow 1 1 1; mkRow 2 2 2; mkRow 2 1 1])
    as (Husers & _ & Hblocks); [by_computation|].
  split; [exact Husers|exact Hblocks].
Defined.

(** Two pairs are asked for and four rows come back: (1, 2) and (2, 1) are
    scored although nobody asked. *)
Lemma score_pairs_counterexample :
  ∃ rows,
    (_predict_pairs Z.add [(1, 1); (2, 2)] (Some docstring_log) fitted).1
    = inr rows ∧
    length rows = 4%nat ∧
    (1, 2) ∈ identity <$> rows ∧
    (1, 2) ∉ [(1, 1); (2, 2)].
Proof.
  exists [mkRow 1 2 2; mkRow 1 1 1; mkRow 2 2 2; mkRow 2 1 1].
  split; [by_computation|]. split; [done|]. split; decided.
Qed.

Lemma score_pairs_returns_the_grid_witness :
  _predict_pairs Z.add [(1, 1); (2, 2)] None fitted
  = (inr [mkRow 1 2 2; mkRow 1 1 1; mkRow 2 2 2; mkRow 2 1 1], fitted) ∧
  (∀ p, p ∈ [(1, 1); (2, 2)] → Z.abs p.1 ≤ 2 ^ 53 ∧ Z.abs p.2 ≤ 2 ^ 53) ∧
  identity <$> [mkRow 1 2 2; mkRow 1 1 1; mkRow 2 2 2; mkRow 2 1 1]
    ≡ₚ cprod (remove_dups [(1, 1); (2, 2)].*1) (remove_dups [(1, 1); (2, 2)].*2) ∧
  NoDup (identity <$> [mkRow 1 2 2; mkRow 1 1 1; mkRow 2 2 2; mkRow 2 1 1]) ∧
  (∀ p, p ∈ [(1, 1); (2, 2)] →
        p ∈ identity <$> [mkRow 1 2 2; mkRow 1 1 1; mkRow 2 2 2; mkRow 2 1 1]) ∧
  (∀ u i,
     (u, i) ∈ identity <$> [mkRow 1 2 2; mkRow 1 1 1; mkRow 2 2 2; mkRow 2 1 1]
     ↔ u ∈ [(1, 1); (2, 2)].*1 ∧ i ∈ [(1, 1); (2, 2)].*2).
Proof.
  assert (∀ p : Z * Z, p ∈ [(1, 1); (2, 2)] →
            Z.abs p.1 ≤ 2 ^ 53 ∧ Z.abs p.2 ≤ 2 ^ 53) as Hexact.
  { apply Forall_forall. repeat constructor; by_computation. }
  split; [by_computation|]. split; [exact Hexact|].
  apply (score_pairs_returns_the_grid Z.add [(1, 1); (2, 2)] None fitted fitted);
    [by_computation|exact Hexact].
Defined.

Lemma fit_replaces_the_cached_matrix_witness :
  docstring_log ≠ [] ∧
  (_fit Z.add docstring_log fitted).1 = inr () ∧
  cached (_fit Z.add docstring_log fitted).2 = Some (build Z.add docstring_log) ∧
  csr_log fitted = Some 1%positive ∧
  csr_log (_fit Z.add docstring_log fitted).2 = Some 2%positive ∧
  (_predict_pairs Z.add [(1, 1); (2, 2)] None fitted).1
  = inr [mkRow 1 2 2; mkRow 1 1 1; mkRow 2 2 2; mkRow 2 1 1].
Proof.
  destruct (fit_replaces_the_cached_matrix Z.add docstring_log fitted)
    as (_ & Hcached & _ & _ & Hpairs); [done|].
  split; [done|]. split; [by_computation|]. split; [exact Hcached|].
  split; [by_computation|]. split; [by_computation|].
  apply (Hpairs [(1, 1); (2, 2)] None fitted).
  exists (build Z.add docstring_log),
    [[2; 1]; [2; 1]], [[2; 1]; [2; 1]].
  split; [by_computation|]. split; [by_computation|].
  split; [decided|]. split; [decided|by_computation].
Defined.

Lemma score_pairs_without_log_needs_a_fit_witness :
  csr_log unfitted = None ∧
  _predict_pairs Z.add [(1, 1); (2, 2)] None unfitted = (inl TypeError, unfitted) ∧
  (_predict_pairs Z.add [(1, 1); (2, 2)] None
     (_load_model "als.joblib" (_save_model "als.joblib" fitted ∅) unfitted).2).1
  = inl TypeError ∧
  (_predict_pairs Z.add [(1, 1); (2, 2)] None
     (_fit Z.add docstring_log unfitted).2).1 ≠ inl TypeError.
Proof.
  destruct (score_pairs_without_log_needs_a_fit Z.add (mkPop ∅) ∅ "als.joblib"
              (_save_model "als.joblib" fitted ∅) [(1, 1); (2, 2)] unfitted)
    as (Hinit & _ & Hnone & _ & Hloaded & Hfit).
  split; [exact Hinit|]. split; [exact (Hnone Hinit)|].
  split; [exact Hloaded|]. by apply Hfit.
Defined.

(** * Further properties of the wrapper *)

(** ** Top-k recommendation *)

Section RecommendMore.
Context {R M : Type} `{!FactorModel R M}.
Variable reduce : R → R → R.

Lemma remove_dups_NoDup (l : list Z) : NoDup l → remove_dups l = l.
Proof.
  induction 1 as [|x l Hx Hnd IH]; [done|]. simpl.
  destruct (decide_rel elem_of x l) as [|_]; [done|]. by rewrite IH.
Qed.

Lemma predict_by_user_head mdl (A : csr R) k f drop g g' :
  head g = head g' →
  predict_by_user mdl A k f drop g = predict_by_user mdl A k f drop g'.
Proof. destruct g, g'; try done. by intros [= ->]. Qed.

Lemma applyInPandas_heads mdl (A : csr R) k f drop (G G' : Z → list Z) us :
  (∀ u, u ∈ us → head (G u) = head (G' u)) →
  applyInPandas (predict_by_user mdl A k f drop) (G <$> us)
  = applyInPandas (predict_by_user mdl A k f drop) (G' <$> us).
Proof.
  induction us as [|u us IH]; intros Hheads; [done|].
  rewrite !fmap_cons. simpl.
  rewrite (predict_by_user_head _ _ _ _ _ (G u) (G' u))
    by (apply Hheads, elem_of_cons; auto).
  rewrite IH; [done|]. intros v Hv. apply Hheads, elem_of_cons. auto.
Qed.

Lemma _predict_returns log k users items f (self : ImplicitWrap R M) rows :
  (_predict reduce log k users items f self).1 = inr rows →
  _predict reduce log k users items f self = (inr rows, self).
Proof.
  intros Hrows. rewrite (surjective_pairing (_predict _ _ _ _ _ _ _)).
  by rewrite Hrows.
Qed.

Lemma NoDup_by_blocks (rows : list (Row R)) :
  (∀ u, NoDup (identity <$> block rows u)) → NoDup (identity <$> rows).
Proof.
  induction rows as [|r rows IH]; intros Hblocks; [constructor|].
  rewrite fmap_cons. apply NoDup_cons. split.
  - intros (r' & Hid & Hr')%list_elem_of_fmap.
    specialize (Hblocks (user_idx r)). unfold block in Hblocks.
    rewrite filter_cons_True in Hblocks by done.
    rewrite fmap_cons in Hblocks. apply NoDup_cons in Hblocks as [Hnew _].
    apply Hnew. apply list_elem_of_fmap. exists r'. split; [done|].
    apply list_elem_of_filter. split; [|done].
    by injection Hid as -> _.
  - apply IH. intros u. specialize (Hblocks u). unfold block in *.
    destruct (decide (user_idx r = u)) as [Hu|Hu].
    + rewrite filter_cons_True in Hblocks by done.
      rewrite fmap_cons in Hblocks. by apply NoDup_cons in Hblocks as [_ ?].
    + by rewrite filter_cons_False in Hblocks.
Qed.

Lemma NoDup_user_rows (u : Z) (ids : list Z) (rel : list R) :
  length ids = length rel → NoDup ids →
  NoDup (identity <$> zip_with (mkRow u) ids rel).
Proof.
  intros Hlen Hnd. apply (NoDup_fmap_1 snd).
  rewrite <- list_fmap_compose.
  rewrite (list_fmap_ext (snd ∘ identity) item_idx) by done.
  by rewrite item_idx_user_rows.
Qed.

(** No (user, item) pair is recommended twice in one call, however often a
    user is listed in [users]. *)
Theorem no_pair_recommended_twice `{!FactorModelContract R M}
  log k users items f (self self' : ImplicitWrap R M) rows :
  _predict reduce log k users items f self = (inr rows, self') →
  NoDup (identity <$> rows).
Proof.
  intros Hp. apply NoDup_by_blocks. intros u.
  destruct (_predict_blocks reduce _ _ _ _ _ _ _ _ Hp u) as [Hin Hout].
  destruct (decide (u ∈ users)) as [Hu|Hu].
  - destruct (Hin Hu) as (ids & rel & Hrec & Hlen & ->).
    apply NoDup_user_rows; [done|]. by eapply recommend_no_dup.
  - rewrite (Hout Hu). constructor.
Qed.

Lemma applyInPandas_length `{!FactorModelContract R M}
  mdl (A : csr R) k f drop (G : Z → list Z) us rows :
  0 < k →
  applyInPandas (predict_by_user mdl A k f drop) (G <$> us) = inr rows →
  Z.of_nat (length rows) ≤ k * Z.of_nat (length us).
Proof.
  intros Hk. revert rows. induction us as [|u us IH]; intros rows Hrows.
  - injection Hrows as <-. simpl. lia.
  - rewrite fmap_cons in Hrows.
    apply applyInPandas_inv in Hrows as (fr & rest & Hfr & Hrest & ->).
    apply predict_by_user_inv in Hfr as (v & ids & rel & _ & Hrec & Hlen & ->).
    rewrite frame_rows_of_user, length_app, length_user_rows by done.
    pose proof (recommend_at_most _ _ _ _ _ _ _ _ Hk Hrec).
    specialize (IH rest Hrest). simpl length. lia.
Qed.

(** A call for a positive [k] returns at most [k] rows for each distinct
    requested user, so at most [k] times the number of distinct users. *)
Theorem at_most_k_rows_per_distinct_user `{!FactorModelContract R M}
  log k users items f (self self' : ImplicitWrap R M) rows :
  0 < k →
  _predict reduce log k users items f self = (inr rows, self') →
  Z.of_nat (length rows) ≤ k * Z.of_nat (length (remove_dups users)).
Proof.
  intros Hk Hp. apply _predict_inv in Hp as (_ & _ & Hrows).
  unfold groupby in Hrows. by eapply applyInPandas_length.
Qed.

(** [_predict] returns rows exactly when the log has interactions and the
    model answers every requested user with two arrays of one length: one
    user the model fails on, or one answer with mismatched arrays, fails the
    whole call, and no rows of the other users are returned. *)
Theorem predict_is_all_or_nothing
  log k users items f (self : ImplicitWrap R M) :
  (∃ rows, (_predict reduce log k users items f self).1 = inr rows) ↔
  log ≠ [] ∧
  ∀ u, u ∈ users → ∃ ids rel,
    recommend (model self) u (row_of (build reduce log) u) k f
      (items_to_drop log items) = inr (ids, rel) ∧
    length ids = length rel.
Proof.
  split.
  - intros [rows Hp]. apply _predict_returns in Hp. split.
    + by apply _predict_inv in Hp as (_ & ? & _).
    + intros u Hu.
      destruct (_predict_blocks reduce _ _ _ _ _ _ _ _ Hp u) as [Hin _].
      destruct (Hin Hu) as (ids & rel & ? & ? & _). by exists ids, rel.
  - intros [Hlog Hrec].
    destruct (_predict_succeeds reduce log k users items f self Hlog Hrec)
      as [rows ->].
    by exists rows.
Qed.

(** How often a user is listed in [users] makes no difference: the call has
    the outcome of the call with every user listed once. *)
Theorem repeated_users_count_once
  log k users items f (self : ImplicitWrap R M) :
  _predict reduce log k users items f self
  = _predict reduce log k (remove_dups users) items f self.
Proof.
  unfold _predict. f_equal. destruct (to_csr reduce log) as [e|A]; [done|].
  simpl. unfold groupby.
  rewrite (remove_dups_NoDup (remove_dups users)) by apply NoDup_remove_dups.
  apply applyInPandas_heads. intros u Hu. rewrite elem_of_remove_dups in Hu.
  rewrite !group_head; [done| |done]. by apply elem_of_remove_dups.
Qed.

(** What a user is recommended does not depend on who else is asked for: two
    calls that differ in [users] only give a user they both list the same
    rows. *)
Theorem users_are_scored_independently
  log k users1 users2 items f (self self1 self2 : ImplicitWrap R M) rows1 rows2 u :
  _predict reduce log k users1 items f self = (inr rows1, self1) →
  _predict reduce log k users2 items f self = (inr rows2, self2) →
  u ∈ users1 → u ∈ users2 →
  block rows1 u = block rows2 u.
Proof.
  intros H1 H2 Hu1 Hu2.
  destruct (_predict_blocks reduce _ _ _ _ _ _ _ _ H1 u) as [Hin1 _].
  destruct (_predict_blocks reduce _ _ _ _ _ _ _ _ H2 u) as [Hin2 _].
  destruct (Hin1 Hu1) as (ids & rel & Hrec & _ & ->).
  destruct (Hin2 Hu2) as (ids' & rel' & Hrec' & _ & ->).
  rewrite Hrec in Hrec'. by injection Hrec' as <- <-.
Qed.

(** The drop list has no repeats and holds the items of the log that are not
    candidates; it is empty exactly when every item of the log is a
    candidate. *)
Theorem drop_list_of_a_call (log : list (Row R)) (items : list Z) :
  NoDup (items_to_drop log items) ∧
  (∀ i, i ∈ items_to_drop log items ↔ i ∈ item_idx <$> log ∧ i ∉ items) ∧
  (items_to_drop log items = [] ↔ ∀ r, r ∈ log → item_idx r ∈ items).
Proof.
  split; [apply NoDup_remove_dups|]. split; [apply elem_of_items_to_drop|].
  split.
  - intros Hnil r Hr. destruct (decide (item_idx r ∈ items)) as [|Hout]; [done|].
    assert (item_idx r ∈ items_to_drop log items) as Hin.
    { apply elem_of_items_to_drop. split; [|done]. by apply list_elem_of_fmap_2. }
    rewrite Hnil in Hin. by apply elem_of_nil in Hin.
  - intros Hall. apply elem_of_nil_inv. intros i Hi.
    apply elem_of_items_to_drop in Hi as [(r & -> & Hr)%list_elem_of_fmap Hout].
    by apply Hout, Hall.
Qed.

End RecommendMore.

(** ** Pairwise scoring, saving and loading, sequences of calls *)

Section ScorePairsMore.
Context {R M : Type} `{!FactorModel R M}.
Variable reduce : R → R → R.

Lemma length_stacked (users : list Z) (m : nat) (ig : list (list Z))
  (rel : list (list R)) :
  has_shape (length users) m ig → has_shape (length users) m rel →
  length (stacked ((λ u, replicate m u) <$> users) ig rel)
  = (length users * m)%nat.
Proof.
  unfold stacked, has_shape. intros [Hn Hm] [Hn' Hm'].
  revert ig rel Hn Hm Hn' Hm'.
  induction users as [|u users IH]; intros ig rel Hn Hm Hn' Hm'; [done|].
  destruct ig as [|g ig]; [done|]. destruct rel as [|r rel]; [done|].
  apply Forall_cons in Hm as [Hg Hm]. apply Forall_cons in Hm' as [Hr Hm'].
  simpl in *. rewrite length_app, IH by (done || lia).
  rewrite !length_zip_with, length_replicate. lia.
Qed.

Lemma elem_of_stacked (users : list Z) (m : nat) (ig : list (list Z))
  (rel : list (list R)) (r : Row R) :
  r ∈ stacked ((λ u, replicate m u) <$> users) ig rel →
  ∃ u i, u ∈ users ∧ user_idx r = via_float64 u ∧ item_idx r = via_float64 i.
Proof.
  unfold stacked. revert ig rel.
  induction users as [|u users IH]; intros ig rel Hr.
  - by apply elem_of_nil in Hr.
  - destruct ig as [|g ig]; [by apply elem_of_nil in Hr|].
    destruct rel as [|x rel]; [by apply elem_of_nil in Hr|].
    simpl in Hr. apply elem_of_app in Hr as [Hr|Hr].
    + apply elem_of_zip_with in Hr as (u' & [i y] & -> & Hu' & _).
      apply elem_of_replicate_inv in Hu' as ->.
      exists u, i. split; [apply elem_of_cons; auto|done].
    + destruct (IH ig rel Hr) as (u' & i & Hu' & ? & ?).
      exists u', i. split; [apply elem_of_cons; auto|done].
Qed.

Lemma via_float64_beyond_is_even (z : Z) :
  2 ^ 53 < Z.abs (via_float64 z) → Z.even (via_float64 z) = true.
Proof.
  unfold via_float64. destruct (Z.abs z <=? 2 ^ 53) eqn:Hsmall.
  - apply Z.leb_le in Hsmall. lia.
  - intros _. apply Z.leb_gt in Hsmall.
    assert (1 ≤ Z.log2 (Z.abs z) - 52) as Hs.
    { assert (Z.log2 (2 ^ 53) ≤ Z.log2 (Z.abs z)) as Hlog
        by (apply Z.log2_le_mono; lia).
      rewrite Z.log2_pow2 in Hlog by lia. lia. }
    cbv zeta. rewrite !Z.even_mul, Z.even_pow by lia.
    by rewrite !orb_true_r.
Qed.

(** Whatever the model returns, a call of [_predict_pairs] that returns has
    one row per cell of the grid, distinct users times distinct items of
    [pairs], each under a user of [pairs] as float64 holds it: a model that
    answers with arrays of another shape makes the call fail. *)
Theorem score_pairs_row_count
  pairs log (self self' : ImplicitWrap R M) rows :
  _predict_pairs reduce pairs log self = (inr rows, self') →
  length rows
  = (length (remove_dups pairs.*1) * length (remove_dups pairs.*2))%nat ∧
  ∀ r, r ∈ rows → ∃ u, u ∈ pairs.*1 ∧ user_idx r = via_float64 u.
Proof.
  intros Hp.
  apply _predict_pairs_inv in Hp as (matrix & ig & rel & _ & _ & Hig & Hrel & ->).
  split; [by apply length_stacked|].
  intros r (u & i & Hu & ? & _)%elem_of_stacked.
  exists u. split; [|done]. by rewrite elem_of_remove_dups in Hu.
Qed.

(** The ids of the rows of [_predict_pairs] have been through float64: no row
    carries an odd id beyond 2^53 in magnitude, so a pair of [pairs] with such
    a user or item has no row of its own. *)
Theorem score_pairs_loses_large_odd_ids
  pairs log (self self' : ImplicitWrap R M) rows :
  _predict_pairs reduce pairs log self = (inr rows, self') →
  (∀ r, r ∈ rows →
     (Z.odd (user_idx r) = true → Z.abs (user_idx r) ≤ 2 ^ 53) ∧
     (Z.odd (item_idx r) = true → Z.abs (item_idx r) ≤ 2 ^ 53)) ∧
  (∀ p, p ∈ pairs →
     (Z.odd p.1 = true ∧ 2 ^ 53 < Z.abs p.1) ∨
     (Z.odd p.2 = true ∧ 2 ^ 53 < Z.abs p.2) →
     p ∉ identity <$> rows).
Proof.
  intros Hp.
  apply _predict_pairs_inv in Hp as (matrix & ig & rel & _ & _ & _ & _ & ->).
  assert (∀ r, r ∈ stacked
                 ((λ u, replicate (length (remove_dups pairs.*2)) u)
                    <$> remove_dups pairs.*1) ig rel →
     (Z.odd (user_idx r) = true → Z.abs (user_idx r) ≤ 2 ^ 53) ∧
     (Z.odd (item_idx r) = true → Z.abs (item_idx r) ≤ 2 ^ 53)) as Hrows.
  { intros r (u & i & _ & -> & ->)%elem_of_stacked.
    split; intros Hodd; apply Z.le_ngt; intros Hbig;
      apply via_float64_beyond_is_even in Hbig;
      rewrite <- Z.negb_odd, Hodd in Hbig; done. }
  split; [exact Hrows|].
  intros [u i] _ Hbig (r & [= -> ->] & Hr)%list_elem_of_fmap.
  destruct (Hrows r Hr) as [Hu Hi]. simpl in Hbig.
  destruct Hbig as [[Hodd Hbig]|[Hodd Hbig]]; [apply Hu in Hodd|apply Hi in Hodd]; lia.
Qed.

(** A model saved to a path and loaded from it, into any instance, is the
    model that was saved; the instance keeps its own cached matrix, and the
    saver's is not part of what is saved. Other paths keep their content, and
    a path nothing was saved to cannot be loaded: the instance stays as it
    was. *)
Theorem model_survives_save_and_load
  path fs (saver other : ImplicitWrap R M) :
  _load_model path (_save_model path saver fs) other
  = (inr (), mkImplicitWrap (model saver) (csr_log other) (heap other)) ∧
  (∀ path', path' ≠ path → _save_model path saver fs !! path' = fs !! path') ∧
  (fs !! path = None → _load_model path fs other = (inl FileNotFoundError, other)).
Proof.
  unfold _load_model, _save_model. split; [by rewrite lookup_insert_eq|]. split.
  - intros path' Hne. by rewrite lookup_insert_ne.
  - by intros ->.
Qed.

Lemma after_keeps_no_cache (c : call) (self : ImplicitWrap R M) :
  ¬ fits reduce c → csr_log self = None → csr_log (after reduce c self) = None.
Proof.
  destruct c as [log|path fs| |]; simpl; try done.
  - intros Hfits Hnone. unfold _fit.
    destruct (to_csr reduce log) as [e|matrix]; [done|].
    destruct Hfits. by exists matrix.
  - intros _ Hnone. unfold _load_model. by destruct (fs !! path).
Qed.

Lemma after_keeps_cache (c : call) (self : ImplicitWrap R M) :
  is_Some (cached self) → is_Some (cached (after reduce c self)).
Proof.
  destruct c as [log|path fs| |]; simpl; try done.
  - intros Hc. unfold _fit. destruct (to_csr reduce log) as [e|matrix]; [done|].
    unfold cached. simpl. rewrite lookup_insert_eq. by eexists.
  - intros Hc. unfold _load_model. by destruct (fs !! path).
Qed.

Lemma after_fit_caches (c : call) (self : ImplicitWrap R M) :
  fits reduce c → is_Some (cached (after reduce c self)).
Proof.
  destruct c as [log| | |]; simpl; try done.
  intros [matrix Hm]. unfold _fit. rewrite Hm.
  unfold cached. simpl. rewrite lookup_insert_eq. by eexists.
Qed.

Lemma after_all_keeps_cache (cs : list call) (self : ImplicitWrap R M) :
  is_Some (cached self) → is_Some (cached (after_all reduce cs self)).
Proof.
  revert self. induction cs as [|c cs IH]; intros self Hc; [done|].
  simpl. by apply IH, after_keeps_cache.
Qed.

(** Over any sequence of calls on a new instance, calls that raise included:
    [_predict_pairs] without a log fails with a TypeError as long as no fit
    has got its matrix built, and never again once one has, whatever is
    loaded or fitted after it. *)
Theorem cache_lives_from_the_first_fit (cs : list call) mdl h pairs :
  let self := after_all reduce cs (__init__ mdl h) in
  (Forall (λ c, ¬ fits reduce c) cs →
   _predict_pairs reduce pairs None self = (inl TypeError, self)) ∧
  (Exists (fits reduce) cs →
   (_predict_pairs reduce pairs None self).1 ≠ inl TypeError).
Proof.
  intros self. subst self. split.
  - intros Hnone.
    assert (∀ s : ImplicitWrap R M, csr_log s = None →
              csr_log (after_all reduce cs s) = None) as Hkeep.
    { induction Hnone as [|c cs Hc _ IH]; intros s Hs; [done|].
      simpl. by apply IH, after_keeps_no_cache. }
    unfold _predict_pairs, cached. simpl. by rewrite Hkeep.
  - intros Hfit.
    assert (∀ s : ImplicitWrap R M, is_Some (cached (after_all reduce cs s)))
      as Hsome.
    { induction Hfit as [c cs Hc|c cs _ IH]; intros s; simpl.
      - by apply after_all_keeps_cache, after_fit_caches.
      - apply IH. }
    destruct (Hsome (__init__ mdl h)) as [matrix Hm].
    by eapply _predict_pairs_not_TypeError.
Qed.

End ScorePairsMore.

(** ** Dataset downloads *)

Module DatasetsFacts.
Import Datasets.

Lemma startswith_sep_archive (dataset : string) :
  startswith_sep (dataset +:+ ".zip") = startswith_sep dataset.
Proof. by destruct dataset. Qed.

Lemma append_is_empty (q b : string) : q +:+ b = "" → q = "" ∧ b = "".
Proof. by destruct q. Qed.

(** [endswith_sep] is [a.endswith("/")]. *)
Lemma endswith_sep_spec (a : string) :
  endswith_sep a = true ↔ ∃ q, a = q +:+ "/".
Proof.
  induction a as [|c a IH]; simpl.
  - split; [done|]. intros [q Hq]. symmetry in Hq.
    by apply append_is_empty in Hq as [_ ?].
  - destruct a as [|d a].
    + rewrite bool_decide_eq_true. split.
      * intros ->. by exists "".
      * intros [[|x q] Hq]; [done|]. simpl in Hq. injection Hq as _ Hq.
        symmetry in Hq. by apply append_is_empty in Hq as [_ ?].
    + rewrite IH. split.
      * intros [q ->]. by exists (String c q).
      * intros [[|x q] Hq]; [done|]. simpl in Hq. injection Hq as _ Hq.
        by exists q.
Qed.

(** [os.path.join] with a second component that does not start with a
    slash: no separator after an empty first component or one that ends with
    a slash, one separator after any other. *)
Lemma join_relative (a b : string) :
  startswith_sep b = false →
  (a = "" → join a b = b) ∧
  (∀ q, a = q +:+ "/" → join a b = a +:+ b) ∧
  (a ≠ "" → (∀ q, a ≠ q +:+ "/") → join a b = a +:+ "/" +:+ b).
Proof.
  intros Hrel. unfold join. rewrite Hrel. split; [by intros ->|]. split.
  - intros q Hq.
    rewrite (proj2 (endswith_sep_spec a)) by by exists q.
    by rewrite orb_true_r.
  - intros Ha Hq. rewrite bool_decide_eq_false_2 by done.
    destruct (endswith_sep a) eqn:Hends; [|done].
    apply endswith_sep_spec in Hends as [q ->]. by destruct (Hq q).
Qed.

(** [download_movielens] with a dataset name that does not start with a
    slash fetches the archive of that name from grouplens and stores it under
    the same name inside [path]: straight after [path] when [path] is empty or
    ends with a slash, after one slash otherwise. *)
Theorem movielens_archive_lands_in_path {A} (download_dataset : string → string → A)
  (path dataset : option string) :
  startswith_sep (default "ml-latest-small" dataset) = false →
  let dir := default "." path in
  let archive := default "ml-latest-small" dataset +:+ ".zip" in
  let url := "http://files.grouplens.org/datasets/movielens/" +:+ archive in
  (dir = "" →
   download_movielens download_dataset path dataset
   = download_dataset url archive) ∧
  (∀ q, dir = q +:+ "/" →
   download_movielens download_dataset path dataset
   = download_dataset url (dir +:+ archive)) ∧
  (dir ≠ "" → (∀ q, dir ≠ q +:+ "/") →
   download_movielens download_dataset path dataset
   = download_dataset url (dir +:+ "/" +:+ archive)).
Proof.
  intros Hrel dir archive url. unfold download_movielens.
  destruct (join_relative dir archive) as (Hempty & Hslash & Hother).
  { unfold archive. by rewrite startswith_sep_archive. }
  fold dir archive url. split; [|split].
  - intros Hdir. by rewrite Hempty.
  - intros q Hq. by rewrite (Hslash q).
  - intros Hne Hq. by rewrite Hother.
Qed.

(** A dataset name that starts with a slash makes [download_movielens] store
    the archive at that absolute name: [path] is ignored. *)
Theorem movielens_absolute_name_ignores_path {A}
  (download_dataset : string → string → A) (path : option string) (dataset : string) :
  startswith_sep dataset = true →
  download_movielens download_dataset path (Some dataset)
  = download_dataset
      ("http://files.grouplens.org/datasets/movielens/" +:+ dataset +:+ ".zip")
      (dataset +:+ ".zip").
Proof.
  intros Habs. unfold download_movielens, join. simpl.
  by rewrite startswith_sep_archive, Habs.
Qed.

(** [download_rekko] fetches one fixed archive, whatever [path] is, and
    stores it as [rekko.zip] inside [path]: straight after [path] when [path]
    is empty or ends with a slash, after one slash otherwise. *)
Theorem rekko_archive_lands_in_path {A} (download_dataset : string → string → A)
  (path : option string) :
  let dir := default "." path in
  let url :=
    "https://boosters.pro/api/ch/files/pub/rekko_challenge_rekko_challenge_2019.zip" in
  (dir = "" → download_rekko download_dataset path
              = download_dataset url "rekko.zip") ∧
  (∀ q, dir = q +:+ "/" →
        download_rekko download_dataset path
        = download_dataset url (dir +:+ "rekko.zip")) ∧
  (dir ≠ "" → (∀ q, dir ≠ q +:+ "/") →
   download_rekko download_dataset path
   = download_dataset url (dir +:+ "/" +:+ "rekko.zip")).
Proof.
  intros dir url. unfold download_rekko.
  destruct (join_relative dir "rekko.zip") as (Hempty & Hslash & Hother);
    [done|].
  fold dir. split; [|split].
  - intros Hdir. by rewrite Hempty.
  - intros q Hq. by rewrite (Hslash q).
  - intros Hne Hq. by rewrite Hother.
Qed.

End DatasetsFacts.

(** ** The further properties at work *)

Lemma no_pair_recommended_twice_witness :
  _predict Z.add docstring_log 2 [1; 1; 2] [1; 2; 3] true fitted
  = (inr [mkRow 1 3 1; mkRow 2 1 1], fitted) ∧
  NoDup (identity <$> [mkRow 1 3 1; mkRow 2 1 1]).
Proof.
  split; [by_computation|].
  apply (no_pair_recommended_twice Z.add docstring_log 2 [1; 1; 2] [1; 2; 3]
           true fitted fitted).
  by_computation.
Defined.

Lemma at_most_k_rows_per_distinct_user_witness :
  0 < 2 ∧
  _predict Z.add docstring_log 2 [1; 1; 2] [1; 2; 3] true fitted
  = (inr [mkRow 1 3 1; mkRow 2 1 1], fitted) ∧
  Z.of_nat (length [mkRow 1 3 1; mkRow 2 1 1])
  ≤ 2 * Z.of_nat (length (remove_dups [1; 1; 2])).
Proof.
  split; [lia|]. split; [by_computation|].
  apply (at_most_k_rows_per_distinct_user Z.add docstring_log 2 [1; 1; 2]
           [1; 2; 3] true fitted fitted); [lia|by_computation].
Defined.

Lemma users_are_scored_independently_witness :
  _predict Z.add docstring_log 2 [1; 1; 2] [1; 2; 3] true fitted
  = (inr [mkRow 1 3 1; mkRow 2 1 1], fitted) ∧
  _predict Z.add docstring_log 2 [2; 9] [1; 2; 3] true fitted
  = (inr [mkRow 2 1 1; mkRow 9 2 2; mkRow 9 1 1], fitted) ∧
  2 ∈ [1; 1; 2] ∧ 2 ∈ [2; 9] ∧
  block [mkRow 1 3 1; mkRow 2 1 1] 2
  = block [mkRow 2 1 1; mkRow 9 2 2; mkRow 9 1 1] 2.
Proof.
  split; [by_computation|]. split; [by_computation|].
  split; [decided|]. split; [decided|].
  apply (users_are_scored_independently Z.add docstring_log 2 [1; 1; 2] [2; 9]
           [1; 2; 3] true fitted fitted fitted);
    [by_computation|by_computation|decided|decided].
Defined.

Lemma score_pairs_row_count_witness :
  _predict_pairs Z.add [(1, 1); (2, 2)] None fitted
  = (inr [mkRow 1 2 2; mkRow 1 1 1; mkRow 2 2 2; mkRow 2 1 1], fitted) ∧
  length [mkRow 1 2 2; mkRow 1 1 1; mkRow 2 2 2; mkRow 2 1 1]
  = (length (remove_dups [(1, 1); (2, 2)].*1)
     * length (remove_dups [(1, 1); (2, 2)].*2))%nat ∧
  ∀ r, r ∈ [mkRow 1 2 2; mkRow 1 1 1; mkRow 2 2 2; mkRow 2 1 1] →
       ∃ u, u ∈ [(1, 1); (2, 2)].*1 ∧ user_idx r = via_float64 u.
Proof.
  split; [by_computation|].
  apply (score_pairs_row_count Z.add [(1, 1); (2, 2)] None fitted fitted).
  by_computation.
Defined.

(** User 2^53 + 1 is scored and comes back as user 2^53. *)
Lemma score_pairs_loses_large_odd_ids_witness :
  _predict_pairs Z.add [(9007199254740993, 1)] None fitted
  = (inr [mkRow 9007199254740992 1 1], fitted) ∧
  (9007199254740993, 1) ∈ [(9007199254740993, 1)] ∧
  Z.odd 9007199254740993 = true ∧ 2 ^ 53 < Z.abs 9007199254740993 ∧
  (9007199254740993, 1) ∉ identity <$> [mkRow 9007199254740992 1 1].
Proof.
  split; [by_computation|]. split; [decided|]. split; [done|].
  split; [by_computation|].
  destruct (score_pairs_loses_large_odd_ids Z.add [(9007199254740993, 1)] None
              fitted fitted [mkRow 9007199254740992 1 1]) as [_ Hlost];
    [by_computation|].
  apply (Hlost (9007199254740993, 1)); [decided|].
  left. split; [done|by_computation].
Defined.

Lemma movielens_archive_lands_in_path_witness :
  Datasets.startswith_sep (default "ml-latest-small" (Some "ml-20m")) = false ∧
  Datasets.download_movielens pair (Some "data") (Some "ml-20m")
  = ("http://files.grouplens.org/datasets/movielens/ml-20m.zip",
     "data/ml-20m.zip") ∧
  Datasets.download_movielens pair (Some "data/") (Some "ml-20m")
  = ("http://files.grouplens.org/datasets/movielens/ml-20m.zip",
     "data/ml-20m.zip") ∧
  Datasets.download_movielens pair (Some "") (Some "ml-20m")
  = ("http://files.grouplens.org/datasets/movielens/ml-20m.zip", "ml-20m.zip").
Proof.
  split; [done|]. split; [|split].
  - destruct (DatasetsFacts.movielens_archive_lands_in_path pair (Some "data")
                (Some "ml-20m")) as (_ & _ & Hother); [done|].
    apply Hother; [done|]. intros q Hq.
    assert (Datasets.endswith_sep "data" = true) as Hends
      by (apply DatasetsFacts.endswith_sep_spec; by exists q).
    discriminate Hends.
  - destruct (DatasetsFacts.movielens_archive_lands_in_path pair (Some "data/")
                (Some "ml-20m")) as (_ & Hslash & _); [done|].
    by apply (Hslash "data").
  - destruct (DatasetsFacts.movielens_archive_lands_in_path pair (Some "")
                (Some "ml-20m")) as (Hempty & _ & _); [done|].
    by apply Hempty.
Defined.

Lemma movielens_absolute_name_ignores_path_witness :
  Datasets.startswith_sep "/tmp/ml-20m" = true ∧
  Datasets.download_movielens pair (Some "data") (Some "/tmp/ml-20m")
  = ("http://files.grouplens.org/datasets/movielens/" +:+ "/tmp/ml-20m" +:+ ".zip",
     "/tmp/ml-20m" +:+ ".zip").
Proof.
  split; [done|].
  apply (DatasetsFacts.movielens_absolute_name_ignores_path pair (Some "data")
           "/tmp/ml-20m").
  done.
Defined.
